(** * Funding and signing workflow of [chain/fund_transaction.js]

    A shallow embedding of the asyncAuto task graph that validates a
    request, resolves a fee rate, derives outputs, selects coins, funds a
    PSBT, releases locks on a dry run and signs.  External capabilities
    (the LND methods, [parseAmount], the [ask] prompt, the logger) are
    fields of an environment record; every call the workflow issues is
    recorded in a trace. *)

From Stdlib Require Import ZArith NArith List Bool Ascii String Lia.
From Stdlib Require Import DecimalString DecimalN DecimalFacts.
From Stdlib Require Import DecimalPos Permutation.
Import ListNotations.
Open Scope string_scope.

(** ** JavaScript strings and numbers, as far as the module uses them *)

Module Js.

(** [s.slice(from)] and [s.slice(0, len)] on strings. *)
Fixpoint slice_from (from : nat) (s : string) : string :=
  match from, s with
  | O, _ => s
  | S k, String _ r => slice_from k r
  | S _, EmptyString => EmptyString
  end.

Fixpoint slice_to (len : nat) (s : string) : string :=
  match len, s with
  | S k, String c r => String c (slice_to k r)
  | _, _ => EmptyString
  end.

(** Truthiness of a string value: only the empty string is falsy. *)
Definition truthy (s : string) : bool :=
  match s with EmptyString => false | _ => true end.

(** Character classes of the two regular expressions, with the [i] flag. *)
Definition is_digit (c : ascii) : bool :=
  let n := nat_of_ascii c in (48 <=? n)%nat && (n <=? 57)%nat.

Definition is_hex (c : ascii) : bool :=
  let n := nat_of_ascii c in
  is_digit c || ((65 <=? n)%nat && (n <=? 70)%nat)
             || ((97 <=? n)%nat && (n <=? 102)%nat).

Fixpoint all_chars (p : ascii -> bool) (s : string) : bool :=
  match s with
  | EmptyString => true
  | String c r => p c && all_chars p r
  end.

(** A JavaScript number, restricted to the values the module meets for an
    output index: a natural number or [NaN]. *)
Inductive num := Num (n : N) | NaN.

(** [Number(s)], exact on the strings [asUtxo] meets after validation:
    the empty string is 0 and a run of decimal digits is its value.  Every
    other string is mapped to [NaN] here, although JavaScript reads more
    forms as numbers (white space, signs, fractions, exponents such as
    [1e3], radix prefixes such as [0x10]): on those strings the model
    says nothing about the source. *)
Definition Number (s : string) : num :=
  match s with
  | EmptyString => Num 0
  | _ => if all_chars is_digit s
         then match NilEmpty.uint_of_string s with
              | Some u => Num (N.of_uint u)
              | None => NaN
              end
         else NaN
  end.

(** Template-literal rendering of such a number: its decimal digits, as
    JavaScript prints every natural number below 10^21. *)
Definition num_to_string (v : num) : string :=
  match v with
  | Num n => NilEmpty.string_of_uint (N.to_uint n)
  | NaN => "NaN"
  end.

(** Decimal rendering of a non-negative integer. *)
Definition dec (n : Z) : string :=
  NilEmpty.string_of_uint (N.to_uint (Z.to_N n)).

(** [k] decimal digits of [n], most significant first, zero padded. *)
Fixpoint pad_digits (k : nat) (n : Z) : string :=
  match k with
  | O => EmptyString
  | S j => pad_digits j (n / 10) ++
           String (ascii_of_nat (48 + Z.to_nat (n mod 10))) EmptyString
  end.

End Js.

(** ** Data of the workflow *)

(** An error as the module and ln-service pass it to a callback: the array
    [[code, message]]. *)
Definition error : Type := Z * string.

(** Objects that carry an outpoint: [transaction_id] and
    [transaction_vout] are read from enumerated coins, from input records
    and from the inputs of a funded transaction alike. *)
Class Outpointed (A : Type) := {
  transaction_id : A -> string;
  transaction_vout : A -> Js.num
}.

(** A coin as [getUtxos] returns it. *)
Record Utxo := mkUtxo {
  utxo_transaction_id : string;
  utxo_transaction_vout : Js.num;
  tokens : Z
}.

(** The intermediate [{id, vout}] object of [asUtxo]. *)
Record IdVout := mkIdVout { id : string; vout : Js.num }.

(** An input record handed to [fundPsbt]. *)
Record Input := mkInput {
  input_transaction_id : string;
  input_transaction_vout : Js.num
}.

(** An output handed to [fundPsbt]. *)
Record Output := mkOutput { address : string; output_tokens : Z }.

(** The funded transaction [fundPsbt] answers with. *)
Record FundedInput := mkFundedInput {
  lock_id : string;
  funded_transaction_id : string;
  funded_transaction_vout : Js.num
}.

Record FundedOutput := mkFundedOutput {
  is_change : bool;
  funded_tokens : Z
}.

Record Funded := mkFunded {
  inputs : list FundedInput;
  outputs : list FundedOutput;
  psbt : string
}.

#[export] Instance Utxo_outpointed : Outpointed Utxo :=
  {| transaction_id := utxo_transaction_id;
     transaction_vout := utxo_transaction_vout |}.

#[export] Instance Input_outpointed : Outpointed Input :=
  {| transaction_id := input_transaction_id;
     transaction_vout := input_transaction_vout |}.

#[export] Instance FundedInput_outpointed : Outpointed FundedInput :=
  {| transaction_id := funded_transaction_id;
     transaction_vout := funded_transaction_vout |}.

(** ** Module-level helpers (lines 13-22) *)

(** [asBigUnit = n => (n / 1e8).toFixed(8)] on an integer token count.
    For an integer of magnitude below 2^52 the quotient's nearest double
    is within half a unit of the eighth decimal of [n / 10^8], so
    [toFixed(8)] prints exactly the integer part, a point and the eight
    digits of the remainder, with a minus sign for a negative count. *)
Definition asBigUnit (n : Z) : string :=
  let a := Z.abs n in
  (if n <? 0 then "-" else "")%Z
    ++ Js.dec (a / 100000000) ++ "." ++ Js.pad_digits 8 (a mod 100000000).

Definition asOutpoint {A} `{Outpointed A} (utxo : A) : string :=
  transaction_id utxo ++ ":" ++ Js.num_to_string (transaction_vout utxo).

Definition asInput (n : IdVout) : Input :=
  {| input_transaction_id := id n; input_transaction_vout := vout n |}.

Definition asUtxo (n : string) : IdVout :=
  {| id := Js.slice_to 64 n; vout := Js.Number (Js.slice_from 65 n) |}.

Definition dustValue : Z := 293.

(** [/^[0-9A-F]{64}:[0-9]{1,6}$/i.test(n)], guarded by [!!n]. *)
Definition isOutpoint (n : string) : bool :=
  Js.truthy n
  && (String.length (Js.slice_to 64 n) =? 64)%nat
  && Js.all_chars Js.is_hex (Js.slice_to 64 n)
  && String.eqb (Js.slice_to 1 (Js.slice_from 64 n)) ":"
  && (1 <=? String.length (Js.slice_from 65 n))%nat
  && (String.length (Js.slice_from 65 n) <=? 6)%nat
  && Js.all_chars Js.is_digit (Js.slice_from 65 n).

(** [/^0[2-3][0-9A-F]{64}$/i.test(n)], guarded by [!!n]. *)
Definition isPublicKey (n : string) : bool :=
  Js.truthy n
  && match n with
     | String c0 (String c1 r) =>
         Ascii.eqb c0 "0"%char
         && (Ascii.eqb c1 "2"%char || Ascii.eqb c1 "3"%char)
         && (String.length r =? 64)%nat
         && Js.all_chars Js.is_hex r
     | _ => false
     end.

Definition minConfs : Z := 1.

(** [arr.reduce((sum, n) => sum + n, Number())] on integers: the source
    adds doubles, which is this sum as long as every partial sum stays
    below 2^53 in magnitude. *)
Definition sumOf (arr : list Z) : Z := fold_left Z.add arr 0%Z.

(** ** External capabilities *)

(** What an asynchronous capability passes to its callback. *)
Definition reply (A : Type) : Type := (error + A)%type.

(** The node behind the authenticated [lnd] handle: what each ln-service
    method answers. *)
Record Lnd := mkLnd {
  getChainFeeRate : reply Z;
  getUtxos : Z -> reply (list Utxo);
  fundPsbt : list Output -> option (list Input) -> Z -> reply Funded;
  unlockUtxo : string -> string -> Js.num -> option error;
  signPsbt : string -> reply string
}.

(** The checkbox question handed to [ask]. *)
Inductive validation :=
  | Accept                      (* [true] *)
  | Reject                      (* [false] *)
  | RejectWith (message : string)
  | Throws.                     (* [find] gave [undefined] *)

Record Choice := mkChoice { name : string; value : string }.

Record Question := mkQuestion {
  choices : list Choice;
  loop : bool;
  question_name : string;
  type : string;
  validate_input : list string -> validation
}.

(** The request.  [None] in [amounts], [addresses] and [utxos] stands for
    a value that is not an array, in [lnd] and [ask] for a falsy one, in
    [fee_tokens_per_vbyte] for [undefined].  The logger is taken to be
    present: the module never tests it. *)
Record Args := mkArgs {
  addresses : option (list string);
  amounts : option (list string);
  ask : option (Question -> list string);
  fee_tokens_per_vbyte : option Z;
  is_dry_run : bool;
  is_selecting_utxos : bool;
  lnd : option Lnd;
  utxos : option (list string)
}.

Record SignedResult := mkSigned { signed_transaction : string }.

(** ** Calls issued to the outside *)

Inductive log_event :=
  | LogFund (fee_rate : Z) (send_to : list Output)
  | LogSign (change : option Z) (sum_of_outputs : Z)
            (spending_utxos : list string).

Inductive call :=
  | CallGetChainFeeRate
  | CallParseAmount (amount : string)
  | CallGetUtxos (min_confirmations : Z)
  | CallAsk (shown : list Choice)
  | CallLoggerInfo (e : log_event)
  | CallFundPsbt (outs : list Output) (ins : option (list Input)) (fee : Z)
  | CallUnlockUtxo (lock txid : string) (txvout : Js.num)
  | CallSignPsbt (unsigned : string).

(** When replies come back.  Two pairs of tasks can be in flight
    together: the fee query with the coin enumeration, and the unlock
    fan-out with the signature; the two flags say whose reply is delivered
    first.  A failing call can also hand its error to the callback before
    it returns (ln-service checks its arguments synchronously), in which
    case asyncAuto stops before the next task starts: [fails_at_once]
    says for which calls a failure is of that kind. *)
Record Schedule := mkSchedule {
  fee_reply_first : bool;
  sign_reply_first : bool;
  fails_at_once : call -> bool
}.

(** ** The workflow monad: a trace of calls and an error or a value *)

Definition M (A : Type) : Type := (list call * (error + A))%type.

Definition ret {A} (a : A) : M A := ([], inr a).
Definition fail {A} (e : error) : M A := ([], inl e).
Definition emit (c : call) : M unit := ([c], inr tt).
Definition await {A} (r : reply A) : M A := ([], r).

Definition bind {A B} (m : M A) (k : A -> M B) : M B :=
  match m with
  | (t, inl e) => (t, inl e)
  | (t, inr a) => let '(t', r) := k a in ((t ++ t')%list, r)
  end.

Notation "x <- m ;; k" := (bind m (fun x => k))
  (at level 61, m at next level, right associativity).
Notation "m ;;; k" := (bind m (fun _ => k))
  (at level 61, right associativity).

Definition trace {A} (m : M A) : list call := fst m.
Definition outcome {A} (m : M A) : error + A := snd m.

(** ** The tasks of the graph *)

Definition is_empty {A} (l : list A) : bool :=
  match l with [] => true | _ => false end.

(** Truthiness of what [Array.prototype.find] returns on strings: the
    element found, or [undefined]. *)
Definition found_truthy (r : option string) : bool :=
  match r with Some s => Js.truthy s | None => false end.

(** [validate] (lines 48-90): the first failing check, or [None]. *)
Definition validate (args : Args) : option error :=
  match lnd args with
  | None => Some (400%Z, "ExpectedAuthenticatedLndToFundTransaction")
  | Some _ =>
  match amounts args with
  | None => Some (400%Z, "ExpectedAddressesToFundTransaction")
  | Some amts =>
  match addresses args with
  | None => Some (400%Z, "ExpectedAddressesToFundTransaction")
  | Some addrs =>
  if is_empty addrs
  then Some (400%Z, "ExpectedAddressToSendFundsToInTransaction")
  else if negb (List.length addrs =? List.length amts)%nat
  then Some (400%Z, "ExpectedAmountOfFundsToSendToAddress")
  else if found_truthy (find isPublicKey addrs)
  then Some (400%Z, "ExpectedFundPayingToAddressesNotPublicKeys")
  else
  match ask args with
  | None => Some (400%Z, "ExpectedAskFunctionToFundTransaction")
  | Some _ =>
  match utxos args with
  | None => Some (400%Z, "ExpectedArrayOfUtxosToSpendToFundTransaction")
  | Some ux =>
  if found_truthy (find (fun n => negb (isOutpoint n)) ux)
  then Some (400%Z, "ExpectedOutpointFormattedUtxoToFundTransaction")
  else if negb (is_empty ux) && is_selecting_utxos args
  then Some (400%Z, "ExpectedEitherSelectUtxosOrExplicitUtxosNotBoth")
  else None
  end end end end end.

(** The [validate] callback of the question (lines 147-163), for the
    enumerated coins and the requested amounts. *)
Fixpoint tokens_of (coins : list Utxo) (input : list string)
  : option (list Z) :=
  match input with
  | [] => Some []
  | utxo :: rest =>
      match find (fun n => String.eqb (asOutpoint n) utxo) coins with
      | None => None
      | Some n =>
          match tokens_of coins rest with
          | None => None
          | Some ts => Some (tokens n :: ts)
          end
      end
  end.

Definition validate_selection (coins : list Utxo) (requested : list Z)
  (input : list string) : validation :=
  if is_empty input then Reject
  else
    match tokens_of coins input with
    | None => Throws
    | Some ts =>
        let selected := sumOf ts in
        let missingTok := asBigUnit (sumOf requested - selected) in
        if (selected <? sumOf requested)%Z
        then RejectWith ("Selected " ++ asBigUnit selected ++ ", need "
                           ++ missingTok ++ " more")
        else Accept
    end.

Section Workflow.

(** [parseAmount] of [./../display]: the token count, or the message of
    the error it throws. *)
Variable parseAmount : string -> string + Z.
Variable sched : Schedule.
Variable args : Args.

(** [outputs] (lines 96-108).  [validate] has made the two arrays equally
    long, so [args.amounts[i]] is the amount paired with the address. *)
Fixpoint derive_outputs (pairs : list (string * string))
  : M (list Output) :=
  match pairs with
  | [] => ret []
  | (addr, amount) :: rest =>
      emit (CallParseAmount amount) ;;;
      match parseAmount amount with
      | inl message => fail (400%Z, message)
      | inr toks =>
          outs <- derive_outputs rest ;;
          ret ({| address := addr; output_tokens := toks |} :: outs)
      end
  end.

(** The error a failing call hands over before it returns, when its
    failure is of that kind. *)
Definition immediate_failure {A} (c : call) (r : reply A) : option error :=
  match r with
  | inl e => if fails_at_once sched c then Some e else None
  | inr _ => None
  end.

(** Issuing a call: the call is recorded, and a failure handed over at
    once ends the run there. *)
Definition issue {A} (c : call) (r : reply A) : M unit :=
  emit c ;;;
  match immediate_failure c r with
  | Some e => fail e
  | None => ret tt
  end.

(** [getUtxos] (lines 111-118): the call is issued only when selecting. *)
Definition issue_getUtxos (node : Lnd) : M unit :=
  if negb (is_selecting_utxos args) then ret tt
  else issue (CallGetUtxos minConfs) (getUtxos node minConfs).

(** The question of lines 139-164 for the enumerated coins. *)
Definition selection_question (coins : list Utxo) (outs : list Output)
  : Question :=
  let requested := map output_tokens outs in
  {| choices :=
       map (fun utxo =>
              {| name := asBigUnit (tokens utxo) ++ " " ++ asOutpoint utxo;
                 value := asOutpoint utxo |}) coins;
     loop := false;
     question_name := "inputs";
     type := "checkbox";
     validate_input := validate_selection coins requested |}.

(** [utxos] (lines 121-166), given the enumeration's result
    ([None] when the task answered without one). *)
Definition select_utxos (askfn : Question -> list string)
  (explicit : list string) (enumerated : option (list Utxo))
  (outs : list Output) : M (list string) :=
  if negb (is_empty explicit) then ret explicit
  else if negb (is_selecting_utxos args) then ret []
  else
    match enumerated with
    | None => fail (0%Z, "TypeError")
    | Some coins =>
        if is_empty coins then fail (400%Z, "WalletHasZeroConfirmedUtxos")
        else
          let question := selection_question coins outs in
          emit (CallAsk (choices question)) ;;;
          ret (askfn question)
    end.

(** The fee rate of line 171: [args.fee_tokens_per_vbyte || queried]. *)
Definition fee_rate (queried : Z) : Z :=
  match fee_tokens_per_vbyte args with
  | Some n => if (n =? 0)%Z then queried else n
  | None => queried
  end.

(** [fund] (lines 169-191). *)
Definition fund (node : Lnd) (queried : Z) (outs : list Output)
  (selected : list string) : M Funded :=
  let ins := map asInput (map asUtxo selected) in
  let fee := fee_rate queried in
  if negb (is_empty
             (filter (fun n => (output_tokens n <? dustValue)%Z) outs))
  then fail (400%Z, "ExpectedNonDustAmountValueForFundingAmount")
  else
    emit (CallLoggerInfo (LogFund fee outs)) ;;;
    let ins_arg := if negb (is_empty ins) then Some ins else None in
    emit (CallFundPsbt outs ins_arg fee) ;;;
    await (fundPsbt node outs ins_arg fee).


(** [unlock] (lines 194-210): on a dry run one [unlockUtxo] per input of
    the funded transaction, all issued before any reply is awaited. *)
Definition unlock_calls (funded : Funded) : list call :=
  map (fun input =>
         CallUnlockUtxo (lock_id input) (transaction_id input)
           (transaction_vout input))
      (inputs funded).

(** asyncEach calls [unlockUtxo] for every input, also after one of the
    calls has failed at once; the first such failure fails the task. *)
Fixpoint first_immediate_unlock_error (node : Lnd)
  (ins : list FundedInput) : option error :=
  match ins with
  | [] => None
  | input :: rest =>
      match unlockUtxo node (lock_id input) (transaction_id input)
              (transaction_vout input) with
      | Some e =>
          if fails_at_once sched
               (CallUnlockUtxo (lock_id input) (transaction_id input)
                  (transaction_vout input))
          then Some e
          else first_immediate_unlock_error node rest
      | None => first_immediate_unlock_error node rest
      end
  end.

Definition issue_unlock (node : Lnd) (funded : Funded) : M unit :=
  if negb (is_dry_run args) then ret tt
  else (unlock_calls funded,
        match first_immediate_unlock_error node (inputs funded) with
        | Some e => inl e
        | None => inr tt
        end).

Fixpoint first_unlock_error (node : Lnd) (ins : list FundedInput)
  : option error :=
  match ins with
  | [] => None
  | input :: rest =>
      match unlockUtxo node (lock_id input) (transaction_id input)
              (transaction_vout input) with
      | Some e => Some e
      | None => first_unlock_error node rest
      end
  end.

Definition unlock_reply (node : Lnd) (funded : Funded) : M unit :=
  if negb (is_dry_run args) then ret tt
  else match first_unlock_error node (inputs funded) with
       | Some e => fail e
       | None => ret tt
       end.

(** [sign] (lines 213-226): the log entry, then the [signPsbt] call. *)
Definition issue_sign (node : Lnd) (funded : Funded) : M unit :=
  let change := hd_error (filter is_change (outputs funded)) in
  let total := sumOf (map funded_tokens (outputs funded)) in
  let toks := option_map funded_tokens change in
  let shown :=
    match toks with
    | Some t => if (t =? 0)%Z then None else Some t
    | None => None
    end in
  emit (CallLoggerInfo
          (LogSign shown total (map asOutpoint (inputs funded)))) ;;;
  issue (CallSignPsbt (psbt funded)) (signPsbt node (psbt funded)).

(** Whether the fee query's reply is the first of the two pending replies
    to be taken: a failure handed over at once comes before everything
    that follows its call. *)
Definition fee_comes_first (node : Lnd) : bool :=
  match immediate_failure CallGetChainFeeRate (getChainFeeRate node) with
  | Some _ => true
  | None =>
      match immediate_failure (CallGetUtxos minConfs)
              (getUtxos node minConfs) with
      | Some _ => false
      | None => fee_reply_first sched
      end
  end.

(** The graph after [validate] has passed.  Tasks start in the order
    asyncAuto readies them; a call is recorded when it is issued, its
    reply is taken when the schedule delivers it. *)
Definition resolve (node : Lnd) (askfn : Question -> list string)
  (explicit : list string) (outs : list Output) : M (Z * list string) :=
  if negb (is_selecting_utxos args) then
    selected <- select_utxos askfn explicit None outs ;;
    queried <- await (getChainFeeRate node) ;;
    ret (queried, selected)
  else if fee_comes_first node then
    queried <- await (getChainFeeRate node) ;;
    coins <- await (getUtxos node minConfs) ;;
    selected <- select_utxos askfn explicit (Some coins) outs ;;
    ret (queried, selected)
  else
    coins <- await (getUtxos node minConfs) ;;
    selected <- select_utxos askfn explicit (Some coins) outs ;;
    queried <- await (getChainFeeRate node) ;;
    ret (queried, selected).

Definition finish (node : Lnd) (funded : Funded) : M SignedResult :=
  issue_unlock node funded ;;;
  issue_sign node funded ;;;
  signed <- (if sign_reply_first sched
             then s <- await (signPsbt node (psbt funded)) ;;
                  unlock_reply node funded ;;; ret s
             else unlock_reply node funded ;;;
                  await (signPsbt node (psbt funded))) ;;
  ret {| signed_transaction := signed |}.

Definition run_validated (node : Lnd) (askfn : Question -> list string)
  (addrs amts explicit : list string) : M SignedResult :=
  issue CallGetChainFeeRate (getChainFeeRate node) ;;;
  outs <- derive_outputs (combine addrs amts) ;;
  issue_getUtxos node ;;;
  qs <- resolve node askfn explicit outs ;;
  funded <- fund node (fst qs) outs (snd qs) ;;
  finish node funded.

(** The exported function: the calls issued and the error or result
    handed to the caller. *)
Definition fund_transaction : M SignedResult :=
  match validate args with
  | Some e => fail e
  | None =>
      match lnd args, ask args, addresses args, amounts args,
            utxos args with
      | Some node, Some askfn, Some addrs, Some amts, Some explicit =>
          run_validated node askfn addrs amts explicit
      | _, _, _, _, _ => fail (0%Z, "TypeError")
      end
  end.

End Workflow.

(** ** Observations on traces *)

Definition is_unlock (c : call) : bool :=
  match c with CallUnlockUtxo _ _ _ => true | _ => false end.

Definition is_fund (c : call) : bool :=
  match c with CallFundPsbt _ _ _ => true | _ => false end.

Definition is_ask (c : call) : bool :=
  match c with CallAsk _ => true | _ => false end.

Definition is_sign (c : call) : bool :=
  match c with CallSignPsbt _ => true | _ => false end.

Definition is_getUtxos (c : call) : bool :=
  match c with CallGetUtxos _ => true | _ => false end.

(** The sub-trace of the calls of one kind. *)
Definition calls_of (kind : call -> bool) {A} (m : M A) : list call :=
  filter kind (trace m).

(** A computation that issues no call of the kind. *)
Definition quiet (kind : call -> bool) {A} (m : M A) : Prop :=
  calls_of kind m = [].

Definition dust_error : error :=
  (400%Z, "ExpectedNonDustAmountValueForFundingAmount").

Definition empty_wallet_error : error :=
  (400%Z, "WalletHasZeroConfirmedUtxos").

(** The [inputs] argument of [fundPsbt] for a resolved coin list. *)
Definition inputs_argument (selected : list string) : option (list Input) :=
  let ins := map asInput (map asUtxo selected) in
  if negb (is_empty ins) then Some ins else None.

(** Token counts are IEEE doubles in the source.  Below this bound,
    2^52, sums of non-negative integer counts are exact whatever the order
    of the additions, and [(n / 1e8).toFixed(8)] prints the exact
    quotient; the properties of sums and display forms are stated for
    counts within it (the total supply, 2.1e15 tokens, lies below). *)
Definition exact_bound : Z := 4503599627370496.

(** The sum of a list of token counts, written without [sumOf]. *)
Definition token_sum (l : list Z) : Z := fold_right Z.add 0%Z l.

(** Modelled from the spec: the display units of a non-negative token
    count, the count divided by 10^8 with eight decimal places. *)
Definition display_units (n : Z) : string :=
  Js.dec (n / 100000000) ++ "." ++ Js.pad_digits 8 (n mod 100000000).

(** Whether the unlock task of a dry run fails before the sign task can
    start. *)
Definition unlock_fails_at_once (sched : Schedule) (args : Args)
  (node : Lnd) (funded : Funded) : bool :=
  is_dry_run args &&
  match first_immediate_unlock_error sched node (inputs funded) with
  | Some _ => true
  | None => false
  end.

(** The request with its fee rate left out. *)
Definition without_fee_rate (args : Args) : Args :=
  {| addresses := addresses args;
     amounts := amounts args;
     ask := ask args;
     fee_tokens_per_vbyte := None;
     is_dry_run := is_dry_run args;
     is_selecting_utxos := is_selecting_utxos args;
     lnd := lnd args;
     utxos := utxos args |}.

(** The test of line 173. *)
Definition has_dust (outs : list Output) : bool :=
  negb (is_empty (filter (fun n => (output_tokens n <? dustValue)%Z) outs)).

(** The two calls of the [sign] task. *)
Definition sign_calls (funded : Funded) : list call :=
  let change := hd_error (filter is_change (outputs funded)) in
  let shown :=
    match option_map funded_tokens change with
    | Some t => if (t =? 0)%Z then None else Some t
    | None => None
    end in
  [CallLoggerInfo
     (LogSign shown (sumOf (map funded_tokens (outputs funded)))
        (map asOutpoint (inputs funded)));
   CallSignPsbt (psbt funded)].

(** ** A concrete node, parser and requests, for evaluating the workflow *)

Module Sample.

Definition ab32 : string :=
  "abababababababababababababababababababababababababababababababab".

Definition coin : Utxo := mkUtxo ab32 (Js.Num 3) 500000.

Definition coin2 : Utxo := mkUtxo ab32 (Js.Num 4) 300000.

Definition funded : Funded :=
  {| inputs := [mkFundedInput "lock1" ab32 (Js.Num 0);
                mkFundedInput "lock2" ab32 (Js.Num 1)];
     outputs := [mkFundedOutput false 100000; mkFundedOutput true 5];
     psbt := "psbt" |}.

Definition node : Lnd :=
  {| getChainFeeRate := inr 7%Z;
     getUtxos := fun _ => inr [coin];
     fundPsbt := fun _ _ _ => inr funded;
     unlockUtxo := fun _ _ _ => None;
     signPsbt := fun _ => inr "signedhex" |}.

(** A node whose fee estimation fails. *)
Definition node_no_fee : Lnd :=
  {| getChainFeeRate := inl (503%Z, "UnexpectedErrorGettingFeeRate");
     getUtxos := fun _ => inr [];
     fundPsbt := fun _ _ _ => inr funded;
     unlockUtxo := fun _ _ _ => None;
     signPsbt := fun _ => inr "signedhex" |}.

(** A node whose wallet holds no confirmed coin. *)
Definition node_empty : Lnd :=
  {| getChainFeeRate := inr 7%Z;
     getUtxos := fun _ => inr [];
     fundPsbt := fun _ _ _ => inr funded;
     unlockUtxo := fun _ _ _ => None;
     signPsbt := fun _ => inr "signedhex" |}.

(** A node that cannot fund the transaction. *)
Definition node_no_funds : Lnd :=
  {| getChainFeeRate := inr 7%Z;
     getUtxos := fun _ => inr [coin];
     fundPsbt := fun _ _ _ => inl (503%Z, "UnexpectedErrorFundingPsbt");
     unlockUtxo := fun _ _ _ => None;
     signPsbt := fun _ => inr "signedhex" |}.

(** A node whose signer fails. *)
Definition node_no_sign : Lnd :=
  {| getChainFeeRate := inr 7%Z;
     getUtxos := fun _ => inr [coin];
     fundPsbt := fun _ _ _ => inr funded;
     unlockUtxo := fun _ _ _ => None;
     signPsbt := fun _ => inl (503%Z, "UnexpectedErrorSigningPsbt") |}.

(** A node that fails to release the second lock. *)
Definition node_keeps_lock : Lnd :=
  {| getChainFeeRate := inr 7%Z;
     getUtxos := fun _ => inr [coin];
     fundPsbt := fun _ _ _ => inr funded;
     unlockUtxo := fun lock _ _ =>
       if String.eqb lock "lock2"
       then Some (503%Z, "UnexpectedErrorUnlockingUtxo") else None;
     signPsbt := fun _ => inr "signedhex" |}.

Definition parseAmount (s : string) : string + Z :=
  if String.eqb s "0.001" then inr 100000%Z
  else if String.eqb s "0.000001" then inr 100%Z
  else inl "UnrecognizedAmount".

Definition pick_all (q : Question) : list string := map value (choices q).

Definition in_order : Schedule :=
  {| fee_reply_first := true;
     sign_reply_first := false;
     fails_at_once := fun _ => false |}.

(** The enumeration's reply first, the signature's reply first. *)
Definition reversed : Schedule :=
  {| fee_reply_first := false;
     sign_reply_first := true;
     fails_at_once := fun _ => false |}.

(** Every failure is handed over at once. *)
Definition at_once : Schedule :=
  {| fee_reply_first := true;
     sign_reply_first := false;
     fails_at_once := fun _ => true |}.

Definition request (amount : string) (fee : option Z)
  (dry selecting : bool) (n : Lnd) (coins : list string) : Args :=
  {| addresses := Some ["addr1"];
     amounts := Some [amount];
     ask := Some pick_all;
     fee_tokens_per_vbyte := fee;
     is_dry_run := dry;
     is_selecting_utxos := selecting;
     lnd := Some n;
     utxos := Some coins |}.

End Sample.

(** * Properties *)

(** ** Traces and outcomes of composed tasks *)

Lemma trace_bind {A B} (m : M A) (k : A -> M B) :
  trace (bind m k) =
  (trace m ++ match outcome m with
              | inr a => trace (k a)
              | inl _ => []
              end)%list.
Proof.
  destruct m as [t [e | a]]; simpl.
  - now rewrite List.app_nil_r.
  - now destruct (k a).
Qed.

Lemma outcome_bind {A B} (m : M A) (k : A -> M B) :
  outcome (bind m k) =
  match outcome m with
  | inr a => outcome (k a)
  | inl e => inl e
  end.
Proof.
  destruct m as [t [e | a]]; simpl; [reflexivity | now destruct (k a)].
Qed.

Lemma surjective_M {A} (m : M A) : m = (trace m, outcome m).
Proof. now destruct m. Qed.

(** ** What a passed validation establishes *)

Lemma validate_code (args : Args) (e : error) :
  validate args = Some e -> fst e = 400%Z.
Proof.
  unfold validate.
  repeat match goal with
         | |- context [match ?x with _ => _ end] => destruct x
         end; intros H; inversion H; reflexivity.
Qed.

Lemma validate_passed (args : Args) :
  validate args = None ->
  exists node askfn addrs amts explicit,
    lnd args = Some node /\ ask args = Some askfn /\
    addresses args = Some addrs /\ amounts args = Some amts /\
    utxos args = Some explicit /\
    addrs <> [] /\ List.length addrs = List.length amts /\
    (explicit = [] \/ is_selecting_utxos args = false).
Proof.
  unfold validate.
  destruct (lnd args) as [node |]; [| discriminate].
  destruct (amounts args) as [amts |]; [| discriminate].
  destruct (addresses args) as [addrs |]; [| discriminate].
  destruct addrs as [| a addrs]; [discriminate |]. cbn [is_empty].
  destruct (Nat.eqb_spec (List.length (a :: addrs)) (List.length amts));
    [| discriminate]. cbn [negb].
  destruct (found_truthy _); [discriminate |].
  destruct (ask args) as [askfn |]; [| discriminate].
  destruct (utxos args) as [explicit |]; [| discriminate].
  destruct (found_truthy _); [discriminate |].
  destruct explicit as [| u explicit]; cbn [is_empty negb andb].
  - intros _. exists node, askfn, (a :: addrs), amts, [].
    repeat split; auto; discriminate.
  - destruct (is_selecting_utxos args); [discriminate |]. intros _.
    exists node, askfn, (a :: addrs), amts, (u :: explicit).
    repeat split; auto; discriminate.
Qed.

Lemma fund_transaction_validated parseAmount sched args
      node askfn addrs amts explicit :
  validate args = None ->
  lnd args = Some node -> ask args = Some askfn ->
  addresses args = Some addrs -> amounts args = Some amts ->
  utxos args = Some explicit ->
  fund_transaction parseAmount sched args =
  run_validated parseAmount sched args node askfn addrs amts explicit.
Proof.
  intros Hv Hl Ha Had Ham Hu. unfold fund_transaction.
  now rewrite Hv, Hl, Ha, Had, Ham, Hu.
Qed.

(** ** Validation failures *)

(** The coin-list test of line 81 looks at the truthiness of the element
    [find] returns, so an empty string among the coins goes unnoticed. *)
Remark validate_misses_empty_coin_string :
  validate (Sample.request "0.001" None false false Sample.node [""])
  = None.
Proof. reflexivity. Qed.

(** C2: when addresses and amounts differ in length, or a non-empty
    explicit coin list comes together with the interactive-selection flag,
    the workflow fails with an error of code 400 and issues no call to any
    external capability. *)
Theorem precondition_failure_makes_no_call parseAmount sched args :
  (exists addrs amts,
      addresses args = Some addrs /\ amounts args = Some amts /\
      List.length addrs <> List.length amts) \/
  (exists explicit,
      utxos args = Some explicit /\ explicit <> [] /\
      is_selecting_utxos args = true) ->
  exists message,
    fund_transaction parseAmount sched args = ([], inl (400%Z, message)).
Proof.
  intros H. unfold fund_transaction.
  destruct (validate args) as [[code message] |] eqn:Hv.
  - apply validate_code in Hv. simpl in Hv. subst code. now exists message.
  - exfalso. apply validate_passed in Hv.
    destruct Hv as (node & askfn & addrs & amts & explicit & _ & _ &
                    Had & Ham & Hu & _ & Hlen & Hex).
    destruct H as [(addrs' & amts' & Had' & Ham' & Hne)
                  | (explicit' & Hu' & Hne & Hsel)].
    + rewrite Had in Had'. rewrite Ham in Ham'.
      inversion Had'. inversion Ham'. subst. contradiction.
    + rewrite Hu in Hu'. inversion Hu'. subst.
      destruct Hex as [-> | Hf]; [contradiction | congruence].
Qed.

Lemma precondition_failure_makes_no_call_witness :
  exists message,
    fund_transaction Sample.parseAmount Sample.in_order
      (Sample.request "0.001" None false true Sample.node
         [(Sample.ab32 ++ ":0")%string])
    = ([], inl (400%Z, message)).
Proof.
  apply precondition_failure_makes_no_call.
  right. exists [(Sample.ab32 ++ ":0")%string].
  repeat split; [discriminate].
Defined.

(** ** Calls of one kind along a composed computation *)

Section Quiet.

Variable kind : call -> bool.

Lemma calls_of_bind {A B} (m : M A) (k : A -> M B) :
  calls_of kind (bind m k) =
  (calls_of kind m ++ match outcome m with
                      | inr a => calls_of kind (k a)
                      | inl _ => []
                      end)%list.
Proof.
  unfold calls_of. rewrite trace_bind, filter_app.
  now destruct (outcome m).
Qed.

Lemma quiet_bind {A B} (m : M A) (k : A -> M B) :
  quiet kind m -> (forall a, quiet kind (k a)) -> quiet kind (bind m k).
Proof.
  unfold quiet. intros Hm Hk. rewrite calls_of_bind, Hm.
  destruct (outcome m); simpl; auto.
Qed.

Lemma quiet_ret {A} (a : A) : quiet kind (ret a).
Proof. reflexivity. Qed.

Lemma quiet_fail {A} (e : error) : quiet kind (@fail A e).
Proof. reflexivity. Qed.

Lemma quiet_await {A} (r : reply A) : quiet kind (await r).
Proof. reflexivity. Qed.

Lemma quiet_emit (c : call) : kind c = false -> quiet kind (emit c).
Proof. unfold quiet, calls_of. simpl. now intros ->. Qed.

End Quiet.

Lemma derive_outputs_quiet kind parseAmount pairs :
  (forall amount, kind (CallParseAmount amount) = false) ->
  quiet kind (derive_outputs parseAmount pairs).
Proof.
  intros Hk. induction pairs as [| [addr amount] rest IH];
    cbn [derive_outputs].
  - apply quiet_ret.
  - apply quiet_bind; [apply quiet_emit, Hk | intros _].
    destruct (parseAmount amount); [apply quiet_fail |].
    apply quiet_bind; [exact IH | intros; apply quiet_ret].
Qed.

Lemma issue_unfold {A} sched (c : call) (r : reply A) :
  issue sched c r =
  ([c], match immediate_failure sched c r with
        | Some e => inl e
        | None => inr tt
        end).
Proof.
  unfold issue. now destruct (immediate_failure sched c r).
Qed.

Lemma immediate_failure_is_failure {A} sched (c : call) (r : reply A) e :
  immediate_failure sched c r = Some e -> r = inl e.
Proof.
  unfold immediate_failure. destruct r as [e' | a]; [| discriminate].
  destruct (fails_at_once sched c); [| discriminate].
  now intros [= ->].
Qed.

Lemma issue_getUtxos_quiet kind sched args node :
  (forall c, kind (CallGetUtxos c) = false) ->
  quiet kind (issue_getUtxos sched args node).
Proof.
  intros Hk. unfold issue_getUtxos.
  destruct (negb _); [apply quiet_ret |].
  rewrite issue_unfold. unfold quiet, calls_of. cbn [trace fst filter].
  now rewrite Hk.
Qed.

Lemma select_utxos_quiet kind args askfn explicit enumerated outs :
  (forall shown, kind (CallAsk shown) = false) ->
  quiet kind (select_utxos args askfn explicit enumerated outs).
Proof.
  intros Hk. unfold select_utxos.
  destruct (negb (is_empty explicit)); [apply quiet_ret |].
  destruct (negb _); [apply quiet_ret |].
  destruct enumerated as [coins |]; [| apply quiet_fail].
  destruct (is_empty coins); [apply quiet_fail |].
  apply quiet_bind; [apply quiet_emit, Hk | intros; apply quiet_ret].
Qed.

Lemma resolve_quiet kind sched args node askfn explicit outs :
  (forall shown, kind (CallAsk shown) = false) ->
  quiet kind (resolve sched args node askfn explicit outs).
Proof.
  intros Hk. unfold resolve.
  pose proof (fun e => select_utxos_quiet kind args askfn explicit e outs Hk).
  destruct (negb _); [| destruct (fee_comes_first sched node)];
    repeat first [ apply quiet_bind; [| intros ? ]
                 | apply quiet_await | apply quiet_ret | solve [auto] ].
Qed.

(** ** The funding step and the steps after it *)

Lemma fund_unfold args node queried outs selected :
  fund args node queried outs selected =
  if has_dust outs then ([], inl dust_error)
  else ([CallLoggerInfo (LogFund (fee_rate args queried) outs);
         CallFundPsbt outs (inputs_argument selected)
           (fee_rate args queried)],
        fundPsbt node outs (inputs_argument selected)
          (fee_rate args queried)).
Proof.
  unfold fund, has_dust, inputs_argument.
  destruct (negb (is_empty (filter _ outs))); [reflexivity |].
  unfold bind, emit, await. simpl. reflexivity.
Qed.

Lemma fund_quiet kind args node queried outs selected :
  (forall e, kind (CallLoggerInfo e) = false) ->
  (forall o i f, kind (CallFundPsbt o i f) = false) ->
  quiet kind (fund args node queried outs selected).
Proof.
  intros Hl Hf. rewrite fund_unfold. unfold quiet, calls_of.
  destruct (has_dust outs); simpl; [reflexivity |].
  now rewrite Hl, Hf.
Qed.

Lemma finish_trace sched args node funded :
  trace (finish sched args node funded) =
  ((if is_dry_run args then unlock_calls funded else [])
     ++ (if unlock_fails_at_once sched args node funded then []
         else sign_calls funded))%list.
Proof.
  unfold finish, issue_unlock, issue_sign, unlock_reply, sign_calls,
    unlock_fails_at_once.
  rewrite issue_unfold. unfold immediate_failure.
  repeat rewrite trace_bind, ?outcome_bind.
  destruct (is_dry_run args); cbn [negb andb];
    destruct (first_immediate_unlock_error sched node (inputs funded));
    destruct (sign_reply_first sched);
    destruct (signPsbt node (psbt funded));
    destruct (fails_at_once sched (CallSignPsbt (psbt funded)));
    destruct (first_unlock_error node (inputs funded));
    simpl; rewrite ?List.app_nil_r; reflexivity.
Qed.

Lemma unlock_calls_all funded :
  filter is_unlock (unlock_calls funded) = unlock_calls funded.
Proof.
  unfold unlock_calls. induction (inputs funded) as [| input rest IH];
    cbn [map filter is_unlock]; [reflexivity | now f_equal].
Qed.

Lemma finish_unlocks sched args node funded :
  calls_of is_unlock (finish sched args node funded) =
  if is_dry_run args then unlock_calls funded else [].
Proof.
  unfold calls_of. rewrite finish_trace, filter_app.
  assert (Hs : filter is_unlock
                 (if unlock_fails_at_once sched args node funded then []
                  else sign_calls funded) = [])
    by (destruct (unlock_fails_at_once _ _ _ _); reflexivity).
  rewrite Hs, List.app_nil_r.
  destruct (is_dry_run args); [apply unlock_calls_all | reflexivity].
Qed.

(** ** The shape of a run that passed validation *)

(** A fee query that fails at once ends the run with its call. *)
Lemma run_validated_at_once parseAmount sched args node askfn
      addrs amts explicit e :
  immediate_failure sched CallGetChainFeeRate (getChainFeeRate node)
  = Some e ->
  run_validated parseAmount sched args node askfn addrs amts explicit
  = ([CallGetChainFeeRate], inl e).
Proof.
  intros Himm. unfold run_validated. rewrite issue_unfold, Himm.
  reflexivity.
Qed.

(** An enumeration that fails at once is the failure of the resolution. *)
Lemma resolve_after_failed_enumeration
      sched args node askfn explicit outs e :
  immediate_failure sched CallGetChainFeeRate (getChainFeeRate node)
  = None ->
  outcome (issue_getUtxos sched args node) = inl e ->
  resolve sched args node askfn explicit outs = ([], inl e).
Proof.
  intros Hfee. unfold issue_getUtxos, resolve, fee_comes_first.
  destruct (negb (is_selecting_utxos args)); [discriminate |].
  rewrite issue_unfold, Hfee. cbn [outcome snd].
  destruct (immediate_failure sched (CallGetUtxos minConfs)
              (getUtxos node minConfs)) as [e' |] eqn:Hen;
    [| discriminate].
  intros [= ->]. apply immediate_failure_is_failure in Hen.
  now rewrite Hen.
Qed.

Lemma run_validated_trace parseAmount sched args node askfn
      addrs amts explicit :
  immediate_failure sched CallGetChainFeeRate (getChainFeeRate node)
  = None ->
  trace (run_validated parseAmount sched args node askfn addrs amts explicit)
  = (CallGetChainFeeRate ::
     trace (derive_outputs parseAmount (combine addrs amts)) ++
     match outcome (derive_outputs parseAmount (combine addrs amts)) with
     | inl _ => []
     | inr outs =>
       trace (issue_getUtxos sched args node) ++
       trace (resolve sched args node askfn explicit outs) ++
       match outcome (resolve sched args node askfn explicit outs) with
       | inl _ => []
       | inr qs =>
         trace (fund args node (fst qs) outs (snd qs)) ++
         match outcome (fund args node (fst qs) outs (snd qs)) with
         | inl _ => []
         | inr funded => trace (finish sched args node funded)
         end
       end
     end)%list.
Proof.
  intros Himm. unfold run_validated. rewrite issue_unfold, Himm.
  repeat rewrite trace_bind, ?outcome_bind.
  cbn [trace outcome fst snd app]. f_equal. f_equal.
  destruct (outcome (derive_outputs _ _)) as [e | outs]; [reflexivity |].
  repeat rewrite trace_bind, ?outcome_bind. f_equal.
  destruct (outcome (issue_getUtxos sched args node)) as [e | []] eqn:Hi.
  - rewrite (resolve_after_failed_enumeration _ _ _ _ _ _ _ Himm Hi).
    reflexivity.
  - repeat rewrite trace_bind, ?outcome_bind.
    destruct (outcome (resolve _ _ _ _ _ _)) as [e | qs]; [reflexivity |].
    now rewrite trace_bind.
Qed.

Lemma run_validated_outcome parseAmount sched args node askfn
      addrs amts explicit :
  immediate_failure sched CallGetChainFeeRate (getChainFeeRate node)
  = None ->
  outcome
    (run_validated parseAmount sched args node askfn addrs amts explicit)
  = match outcome (derive_outputs parseAmount (combine addrs amts)) with
    | inl e => inl e
    | inr outs =>
      match outcome (resolve sched args node askfn explicit outs) with
      | inl e => inl e
      | inr qs =>
        match outcome (fund args node (fst qs) outs (snd qs)) with
        | inl e => inl e
        | inr funded => outcome (finish sched args node funded)
        end
      end
    end.
Proof.
  intros Himm. unfold run_validated. rewrite issue_unfold, Himm.
  repeat rewrite outcome_bind. cbn [outcome snd].
  destruct (outcome (derive_outputs _ _)) as [e | outs]; [reflexivity |].
  repeat rewrite outcome_bind.
  destruct (outcome (issue_getUtxos sched args node)) as [e | []] eqn:Hi.
  - now rewrite (resolve_after_failed_enumeration _ _ _ _ _ _ _ Himm Hi).
  - repeat rewrite outcome_bind.
    destruct (outcome (resolve _ _ _ _ _ _)) as [e | qs]; [reflexivity |].
    now rewrite outcome_bind.
Qed.

Lemma run_validated_starts parseAmount sched args node askfn
      addrs amts explicit :
  exists rest,
    trace (run_validated parseAmount sched args node askfn
             addrs amts explicit)
    = CallGetChainFeeRate :: rest.
Proof.
  destruct (immediate_failure sched CallGetChainFeeRate
              (getChainFeeRate node)) as [e |] eqn:Himm.
  - rewrite (run_validated_at_once _ _ _ _ _ _ _ _ _ Himm).
    now exists [].
  - rewrite run_validated_trace by assumption. eexists. reflexivity.
Qed.

Lemma run_validated_unlocks parseAmount sched args node askfn
      addrs amts explicit :
  immediate_failure sched CallGetChainFeeRate (getChainFeeRate node)
  = None ->
  calls_of is_unlock
    (run_validated parseAmount sched args node askfn addrs amts explicit)
  = match outcome (derive_outputs parseAmount (combine addrs amts)) with
    | inl _ => []
    | inr outs =>
      match outcome (resolve sched args node askfn explicit outs) with
      | inl _ => []
      | inr qs =>
        match outcome (fund args node (fst qs) outs (snd qs)) with
        | inl _ => []
        | inr funded => if is_dry_run args then unlock_calls funded else []
        end
      end
    end.
Proof.
  intros Himm. unfold calls_of at 1. rewrite run_validated_trace by assumption.
  cbn [filter is_unlock]. rewrite filter_app.
  fold (calls_of is_unlock (derive_outputs parseAmount (combine addrs amts))).
  rewrite derive_outputs_quiet by reflexivity. cbn [app].
  destruct (outcome (derive_outputs _ _)) as [e | outs]; [reflexivity |].
  rewrite !filter_app.
  fold (calls_of is_unlock (issue_getUtxos sched args node)).
  fold (calls_of is_unlock (resolve sched args node askfn explicit outs)).
  rewrite issue_getUtxos_quiet, resolve_quiet by reflexivity. cbn [app].
  destruct (outcome (resolve _ _ _ _ _ _)) as [e | qs]; [reflexivity |].
  rewrite filter_app.
  fold (calls_of is_unlock (fund args node (fst qs) outs (snd qs))).
  rewrite fund_quiet by reflexivity. cbn [app].
  destruct (outcome (fund _ _ _ _ _)) as [e | funded]; [reflexivity |].
  apply finish_unlocks.
Qed.

(** A run that returns a result met no failure, immediate or not. *)
Lemma finish_success sched args node funded result :
  outcome (finish sched args node funded) = inr result ->
  signPsbt node (psbt funded) = inr (signed_transaction result) /\
  (is_dry_run args = true ->
   first_unlock_error node (inputs funded) = None) /\
  unlock_fails_at_once sched args node funded = false.
Proof.
  unfold finish, issue_unlock, issue_sign, unlock_reply,
    unlock_fails_at_once.
  rewrite issue_unfold. unfold immediate_failure.
  repeat rewrite outcome_bind.
  destruct (is_dry_run args); cbn [negb andb];
    destruct (first_immediate_unlock_error sched node (inputs funded));
    destruct (sign_reply_first sched);
    destruct (signPsbt node (psbt funded)) as [se | signed];
    destruct (fails_at_once sched (CallSignPsbt (psbt funded)));
    destruct (first_unlock_error node (inputs funded));
    cbn; intros H; try discriminate; inversion H; subst; cbn;
    repeat split; auto; discriminate.
Qed.

(** ** Dry runs *)

(** C1: a successful dry run issues exactly the unlock calls of the funded
    transaction's inputs, one per input with that input's lock identifier,
    transaction id and output index, and the signing primitive is invoked
    on the funded transaction; without the dry-run flag no unlock call is
    issued in any run. *)
Theorem dry_run_unlocks_every_funded_input parseAmount sched args :
  (is_dry_run args = true ->
   forall result,
     outcome (fund_transaction parseAmount sched args) = inr result ->
     exists node outs ins fee funded,
       lnd args = Some node /\
       In (CallFundPsbt outs ins fee)
          (trace (fund_transaction parseAmount sched args)) /\
       fundPsbt node outs ins fee = inr funded /\
       calls_of is_unlock (fund_transaction parseAmount sched args)
       = map (fun input =>
                CallUnlockUtxo (lock_id input) (transaction_id input)
                  (transaction_vout input))
             (inputs funded) /\
       In (CallSignPsbt (psbt funded))
          (trace (fund_transaction parseAmount sched args))) /\
  (is_dry_run args = false ->
   calls_of is_unlock (fund_transaction parseAmount sched args) = []).
Proof.
  destruct (validate args) as [e |] eqn:Hv.
  - unfold fund_transaction. rewrite Hv. split; [| reflexivity].
    intros _ result H. discriminate.
  - destruct (validate_passed _ Hv)
      as (node & askfn & addrs & amts & explicit & Hl & Ha & Had & Ham &
          Hu & _).
    rewrite (fund_transaction_validated parseAmount sched args
               node askfn addrs amts explicit) by assumption.
    destruct (immediate_failure sched CallGetChainFeeRate
                (getChainFeeRate node)) as [e |] eqn:Himm.
    { rewrite (run_validated_at_once _ _ _ _ _ _ _ _ _ Himm).
      split; [intros _ ? H; discriminate | reflexivity]. }
    rewrite run_validated_unlocks, run_validated_trace,
      run_validated_outcome by assumption.
    destruct (outcome (derive_outputs _ _)) as [e | outs];
      [split; [intros _ ? H; discriminate | reflexivity] |].
    destruct (outcome (resolve _ _ _ _ _ _)) as [e | qs];
      [split; [intros _ ? H; discriminate | reflexivity] |].
    rewrite fund_unfold. destruct (has_dust outs); cbn [trace outcome fst snd];
      [split; [intros _ ? H; discriminate | reflexivity] |].
    destruct (fundPsbt node outs _ _) as [e | funded] eqn:Hf;
      [split; [intros _ ? H; discriminate | reflexivity] |].
    split; [| now intros ->].
    intros Hdry result Hok. rewrite Hdry.
    apply finish_success in Hok. destruct Hok as (_ & _ & Hnow).
    exists node, outs, (inputs_argument (snd qs)),
      (fee_rate args (fst qs)), funded.
    repeat split; try assumption; try reflexivity.
    + apply in_cons. do 3 (apply in_or_app; right).
      apply in_or_app. left. apply in_cons, in_eq.
    + apply in_cons. do 4 (apply in_or_app; right).
      rewrite finish_trace, Hnow. apply in_or_app. right.
      apply in_cons, in_eq.
Qed.

Lemma dry_run_unlocks_every_funded_input_witness :
  let run := fund_transaction Sample.parseAmount Sample.in_order
               (Sample.request "0.001" None true false Sample.node []) in
  exists node outs ins fee funded,
    Some Sample.node = Some node /\
    In (CallFundPsbt outs ins fee) (trace run) /\
    fundPsbt node outs ins fee = inr funded /\
    calls_of is_unlock run
    = map (fun input =>
             CallUnlockUtxo (lock_id input) (transaction_id input)
               (transaction_vout input))
          (inputs funded) /\
    In (CallSignPsbt (psbt funded)) (trace run).
Proof.
  exact (proj1 (dry_run_unlocks_every_funded_input
                  Sample.parseAmount Sample.in_order
                  (Sample.request "0.001" None true false Sample.node []))
               eq_refl {| signed_transaction := "signedhex" |} eq_refl).
Defined.

(** ** The dust floor *)

Lemma has_dust_Exists outs :
  has_dust outs = true <->
  Exists (fun o => (output_tokens o < dustValue)%Z) outs.
Proof.
  unfold has_dust. induction outs as [| o outs IH]; simpl.
  - split; [discriminate | intros H; inversion H].
  - destruct (Z.ltb_spec (output_tokens o) dustValue) as [Hlt | Hge]; simpl.
    + split; [intros _; now left | reflexivity].
    + rewrite IH. split; [intros H; now right |].
      intros H. inversion H; subst; [lia | assumption].
Qed.



Lemma resolve_after_immediate_fee_failure
      sched args node askfn explicit outs e :
  explicit = [] \/ is_selecting_utxos args = false ->
  immediate_failure sched CallGetChainFeeRate (getChainFeeRate node)
  = Some e ->
  outcome (resolve sched args node askfn explicit outs) = inl e.
Proof.
  intros Hex Himm. unfold resolve, select_utxos, fee_comes_first.
  rewrite Himm. apply immediate_failure_is_failure in Himm. rewrite Himm.
  destruct (is_selecting_utxos args); cbn [negb]; [reflexivity |].
  now destruct explicit.
Qed.




(** ** The selection's validation callback *)

Lemma asBigUnit_positive (n : Z) :
  (0 < n)%Z ->
  asBigUnit n =
  Js.dec (n / 100000000) ++ "." ++ Js.pad_digits 8 (n mod 100000000).
Proof.
  intros Hn. unfold asBigUnit.
  destruct (Z.ltb_spec n 0) as [Hlt | _]; [lia |].
  now rewrite Z.abs_eq by lia.
Qed.

Lemma find_by_outpoint (coins : list Utxo) (u : Utxo) :
  NoDup (map asOutpoint coins) -> In u coins ->
  find (fun n => String.eqb (asOutpoint n) (asOutpoint u)) coins = Some u.
Proof.
  induction coins as [| c coins IH]; intros Hnd Hin; [destruct Hin |].
  cbn [map] in Hnd. inversion Hnd as [| x l Hnotin Hnd']; subst.
  cbn [find].
  destruct (String.eqb_spec (asOutpoint c) (asOutpoint u)) as [Heq | Hne].
  - destruct Hin as [-> | Hin]; [reflexivity |].
    exfalso. apply Hnotin. rewrite Heq. now apply in_map.
  - destruct Hin as [-> | Hin]; [contradiction | auto].
Qed.

Lemma tokens_of_selected (coins selected : list Utxo) :
  NoDup (map asOutpoint coins) ->
  Forall (fun u => In u coins) selected ->
  tokens_of coins (map asOutpoint selected) = Some (map tokens selected).
Proof.
  intros Hnd Hsel. induction Hsel as [| u selected Hin _ IH];
    [reflexivity |].
  cbn [map tokens_of]. now rewrite find_by_outpoint, IH.
Qed.

Lemma asBigUnit_nonneg (n : Z) :
  (0 <= n)%Z -> asBigUnit n = display_units n.
Proof.
  intros Hn. unfold asBigUnit, display_units.
  destruct (Z.ltb_spec n 0) as [Hlt | _]; [lia |].
  now rewrite Z.abs_eq by lia.
Qed.

Lemma sumOf_cons (a : Z) (l : list Z) : sumOf (a :: l) = (a + sumOf l)%Z.
Proof.
  unfold sumOf. cbn [fold_left].
  assert (H : forall l x y,
             fold_left Z.add l (x + y)%Z = (x + fold_left Z.add l y)%Z).
  { clear. induction l as [| b l IH]; intros x y; cbn [fold_left];
      [reflexivity |]. now rewrite <- Z.add_assoc, IH. }
  now rewrite Z.add_comm, H.
Qed.

Lemma sumOf_token_sum (l : list Z) : sumOf l = token_sum l.
Proof.
  induction l as [| a l IH]; [reflexivity |].
  rewrite sumOf_cons, IH. reflexivity.
Qed.

Lemma token_sum_nonneg (l : list Z) :
  Forall (fun n => (0 <= n)%Z) l -> (0 <= token_sum l)%Z.
Proof.
  induction 1 as [| a l Ha _ IH]; cbn [token_sum fold_right];
    [lia |]. fold (token_sum l). lia.
Qed.

(** C4: on a non-empty selection of enumerated coins with token sum S,
    against a requested total T, the callback accepts exactly when
    S >= T; when S < T it answers the message whose shortfall is T - S in
    display units, the quotient by 10^8 with the eight digits of the
    remainder; the empty selection is rejected.  Token counts are
    non-negative and their sums lie in the range in which the source's
    double arithmetic is exact. *)
Theorem selection_validated_against_total
        (coins selected : list Utxo) (requested : list Z) :
  NoDup (map asOutpoint coins) ->
  Forall (fun u => In u coins) selected ->
  selected <> [] ->
  Forall (fun u => (0 <= tokens u)%Z) selected ->
  Forall (fun n => (0 <= n)%Z) requested ->
  (token_sum (map tokens selected) < exact_bound)%Z ->
  (token_sum requested < exact_bound)%Z ->
  let S := token_sum (map tokens selected) in
  let T := token_sum requested in
  (validate_selection coins requested (map asOutpoint selected) = Accept
   <-> (S >= T)%Z) /\
  ((S < T)%Z ->
   validate_selection coins requested (map asOutpoint selected)
   = RejectWith
       ("Selected " ++ display_units S ++ ", need "
          ++ display_units (T - S) ++ " more")) /\
  validate_selection coins requested [] = Reject.
Proof.
  intros Hnd Hsel Hne Hpos Hreq _ _ S T. unfold validate_selection.
  rewrite tokens_of_selected by assumption.
  assert (He : is_empty (map asOutpoint selected) = false)
    by (destruct selected; [contradiction | reflexivity]).
  rewrite He, !sumOf_token_sum. fold S T.
  assert (HS : (0 <= S)%Z).
  { apply token_sum_nonneg. rewrite Forall_map. exact Hpos. }
  clearbody S T.
  destruct (Z.ltb_spec S T) as [Hlt | Hge].
  - split; [split; [discriminate | lia] |].
    split; [| reflexivity].
    intros _. now rewrite !asBigUnit_nonneg by lia.
  - split; [split; [lia | reflexivity] |].
    split; [lia | reflexivity].
Qed.

Lemma selection_validated_against_total_witness :
  let coins := [Sample.coin; Sample.coin2] in
  (validate_selection coins [600000%Z; 300000%Z] (map asOutpoint coins)
   = Accept <-> (800000 >= 900000)%Z) /\
  ((800000 < 900000)%Z ->
   validate_selection coins [600000%Z; 300000%Z] (map asOutpoint coins)
   = RejectWith "Selected 0.00800000, need 0.00100000 more") /\
  validate_selection coins [600000%Z; 300000%Z] [] = Reject.
Proof.
  apply (selection_validated_against_total
           [Sample.coin; Sample.coin2] [Sample.coin; Sample.coin2]
           [600000%Z; 300000%Z]).
  - repeat constructor; simpl; intuition discriminate.
  - repeat constructor; simpl; tauto.
  - discriminate.
  - repeat constructor; simpl; lia.
  - repeat constructor; lia.
  - reflexivity.
  - reflexivity.
Defined.

(** ** Fee rate and coin list handed to the funding step *)

Lemma select_utxos_unfold args askfn explicit enumerated outs :
  select_utxos args askfn explicit enumerated outs =
  if negb (is_empty explicit) then ([], inr explicit)
  else if negb (is_selecting_utxos args) then ([], inr [])
  else match enumerated with
       | None => ([], inl (0%Z, "TypeError"))
       | Some coins =>
           if is_empty coins then ([], inl empty_wallet_error)
           else ([CallAsk (choices (selection_question coins outs))],
                 inr (askfn (selection_question coins outs)))
       end.
Proof.
  unfold select_utxos.
  destruct (negb (is_empty explicit)); [reflexivity |].
  destruct (negb _); [reflexivity |].
  destruct enumerated as [coins |]; [| reflexivity].
  destruct (is_empty coins); reflexivity.
Qed.

Lemma resolve_inversion sched args node askfn explicit outs qs :
  outcome (resolve sched args node askfn explicit outs) = inr qs ->
  getChainFeeRate node = inr (fst qs) /\
  (is_selecting_utxos args = false -> snd qs = explicit) /\
  (is_selecting_utxos args = true -> explicit = [] ->
   exists coins,
     getUtxos node minConfs = inr coins /\ coins <> [] /\
     snd qs = askfn (selection_question coins outs) /\
     In (CallAsk (choices (selection_question coins outs)))
        (trace (resolve sched args node askfn explicit outs))).
Proof.
  unfold resolve, select_utxos, fee_comes_first, immediate_failure.
  destruct (is_selecting_utxos args) eqn:Hsel;
    destruct (fee_reply_first sched);
    destruct (getChainFeeRate node) as [e | q];
    destruct (getUtxos node minConfs) as [e' | coins];
    destruct (fails_at_once sched CallGetChainFeeRate);
    destruct (fails_at_once sched (CallGetUtxos minConfs));
    destruct explicit as [| x explicit];
    try destruct coins as [| c coins];
    cbn; intros H; try discriminate; inversion H; subst; cbn;
    (split; [reflexivity |]);
    (split; [intros; congruence |]);
    intros; try discriminate;
    exists (c :: coins); repeat split; try discriminate; auto.
Qed.

Lemma quiet_not_in kind {A} (m : M A) (c : call) :
  quiet kind m -> kind c = true -> ~ In c (trace m).
Proof.
  unfold quiet, calls_of. intros Hq Hk Hin.
  assert (H : In c (filter kind (trace m))) by (apply filter_In; auto).
  rewrite Hq in H. destruct H.
Qed.

Lemma finish_quiet_fund sched args node funded :
  quiet is_fund (finish sched args node funded).
Proof.
  unfold quiet, calls_of. rewrite finish_trace, filter_app.
  assert (Hu : filter is_fund (unlock_calls funded) = []).
  { unfold unlock_calls. induction (inputs funded); [reflexivity | auto]. }
  destruct (is_dry_run args);
    destruct (unlock_fails_at_once sched args node funded);
    rewrite ?Hu; reflexivity.
Qed.

(** Every [fundPsbt] call of a validated run is the one of the funding
    step, made on the resolved outputs, coin list and fee rate. *)
Lemma fund_call_inversion parseAmount sched args node askfn
      addrs amts explicit outs ins fee :
  In (CallFundPsbt outs ins fee)
     (trace (run_validated parseAmount sched args node askfn
               addrs amts explicit)) ->
  exists qs,
    outcome (derive_outputs parseAmount (combine addrs amts)) = inr outs /\
    outcome (resolve sched args node askfn explicit outs) = inr qs /\
    has_dust outs = false /\
    ins = inputs_argument (snd qs) /\
    fee = fee_rate args (fst qs).
Proof.
  destruct (immediate_failure sched CallGetChainFeeRate
              (getChainFeeRate node)) as [e |] eqn:Himm.
  { rewrite (run_validated_at_once _ _ _ _ _ _ _ _ _ Himm).
    intros [H | []]. discriminate. }
  rewrite run_validated_trace by assumption.
  intros [H | H]; [discriminate |].
  apply in_app_or in H. destruct H as [H | H].
  { exfalso. revert H. apply quiet_not_in with (kind := is_fund);
      [now apply derive_outputs_quiet | reflexivity]. }
  destruct (outcome (derive_outputs _ _)) as [e | outs'];
    [destruct H |].
  apply in_app_or in H. destruct H as [H | H].
  { exfalso. revert H. apply quiet_not_in with (kind := is_fund);
      [now apply issue_getUtxos_quiet | reflexivity]. }
  apply in_app_or in H. destruct H as [H | H].
  { exfalso. revert H. apply quiet_not_in with (kind := is_fund);
      [now apply resolve_quiet | reflexivity]. }
  destruct (outcome (resolve _ _ _ _ _ _)) as [e | qs] eqn:Hres;
    [destruct H |].
  rewrite fund_unfold in H.
  destruct (has_dust outs') eqn:Hd; cbn [trace outcome fst snd] in H.
  { destruct H. }
  apply in_app_or in H. destruct H as [H | H].
  - destruct H as [H | [H | []]]; [discriminate |].
    inversion H; subst. exists qs. now rewrite Hres.
  - exfalso. destruct (fundPsbt node outs' _ _); [destruct H |].
    revert H. apply quiet_not_in with (kind := is_fund);
      [apply finish_quiet_fund | reflexivity].
Qed.

Lemma no_immediate_failure_of_success {A} sched (c : call) (r : reply A) a :
  r = inr a -> immediate_failure sched c r = None.
Proof. now intros ->. Qed.

Lemma resolve_success_no_immediate sched args node askfn explicit outs qs :
  outcome (resolve sched args node askfn explicit outs) = inr qs ->
  immediate_failure sched CallGetChainFeeRate (getChainFeeRate node) = None.
Proof.
  intros Hres. apply resolve_inversion in Hres. destruct Hres as [Hfee _].
  now rewrite Hfee.
Qed.

Lemma calls_only_after_validation parseAmount sched args c :
  In c (trace (fund_transaction parseAmount sched args)) ->
  validate args = None.
Proof.
  unfold fund_transaction. destruct (validate args); [intros [] | reflexivity].
Qed.

Lemma fund_call_of_validated parseAmount sched args outs ins fee :
  In (CallFundPsbt outs ins fee)
     (trace (fund_transaction parseAmount sched args)) ->
  exists node askfn addrs amts explicit qs,
    lnd args = Some node /\ ask args = Some askfn /\
    addresses args = Some addrs /\ amounts args = Some amts /\
    utxos args = Some explicit /\
    outcome (derive_outputs parseAmount (combine addrs amts)) = inr outs /\
    outcome (resolve sched args node askfn explicit outs) = inr qs /\
    has_dust outs = false /\
    ins = inputs_argument (snd qs) /\
    fee = fee_rate args (fst qs).
Proof.
  intros Hin. destruct (validate args) as [e |] eqn:Hv.
  - unfold fund_transaction in Hin. rewrite Hv in Hin. destruct Hin.
  - destruct (validate_passed _ Hv)
      as (node & askfn & addrs & amts & explicit & Hl & Ha & Had & Ham &
          Hu & _).
    rewrite (fund_transaction_validated parseAmount sched args
               node askfn addrs amts explicit) in Hin by assumption.
    apply fund_call_inversion in Hin. destruct Hin as (qs & H).
    exists node, askfn, addrs, amts, explicit, qs. tauto.
Qed.

(** ** The fee rate *)

(** C5, as stated, fails: with an explicit rate of 5 the fee estimation is
    queried all the same, before the funding primitive is called at 5. *)
Lemma explicit_fee_rate_counterexample :
  let run := fund_transaction Sample.parseAmount Sample.in_order
               (Sample.request "0.001" (Some 5%Z) false false
                  Sample.node []) in
  In CallGetChainFeeRate (trace run) /\
  In (CallFundPsbt [{| address := "addr1"; output_tokens := 100000 |}]
        None 5)
     (trace run).
Proof.
  split; cbn; tauto.
Qed.

(** C5, amended: a non-zero explicit fee rate is passed verbatim to the
    funding primitive, and without an explicit rate the rate the fee
    estimation suggested is passed; the fee estimation is queried in every
    request that passes validation, whether or not a rate was supplied. *)
Theorem fee_rate_passed_to_funding parseAmount sched args :
  validate args = None ->
  In CallGetChainFeeRate (trace (fund_transaction parseAmount sched args)) /\
  (forall outs ins fee,
      In (CallFundPsbt outs ins fee)
         (trace (fund_transaction parseAmount sched args)) ->
      exists node queried,
        lnd args = Some node /\ getChainFeeRate node = inr queried /\
        (forall n, fee_tokens_per_vbyte args = Some n -> n <> 0%Z ->
                   fee = n) /\
        (fee_tokens_per_vbyte args = None -> fee = queried)).
Proof.
  intros Hv. split.
  - destruct (validate_passed _ Hv)
      as (node & askfn & addrs & amts & explicit & Hl & Ha & Had & Ham &
          Hu & _).
    rewrite (fund_transaction_validated parseAmount sched args
               node askfn addrs amts explicit) by assumption.
    destruct (run_validated_starts parseAmount sched args node askfn
                addrs amts explicit) as (rest & ->).
    apply in_eq.
  - intros outs ins fee Hin. apply fund_call_of_validated in Hin.
    destruct Hin as (node & askfn & addrs & amts & explicit & qs & Hl & _ &
                     _ & _ & _ & _ & Hres & _ & _ & ->).
    apply resolve_inversion in Hres. destruct Hres as (Hfee & _).
    exists node, (fst qs). repeat split; auto; unfold fee_rate.
    + intros n -> Hn. now destruct (Z.eqb_spec n 0).
    + now intros ->.
Qed.

Lemma fee_rate_passed_to_funding_witness :
  let run := fund_transaction Sample.parseAmount Sample.in_order
               (Sample.request "0.001" (Some 5%Z) false false
                  Sample.node []) in
  In CallGetChainFeeRate (trace run) /\
  (forall outs ins fee,
      In (CallFundPsbt outs ins fee) (trace run) ->
      exists node queried,
        Some Sample.node = Some node /\
        getChainFeeRate node = inr queried /\
        (forall n, Some 5%Z = Some n -> n <> 0%Z -> fee = n) /\
        (Some 5%Z = None -> fee = queried)).
Proof.
  exact (fee_rate_passed_to_funding Sample.parseAmount Sample.in_order
           (Sample.request "0.001" (Some 5%Z) false false Sample.node [])
           eq_refl).
Defined.

(** C9: with an explicit fee rate of 0 every call of the funding primitive
    carries the rate the fee estimation answered, and the whole run, calls
    and result, is the run of the same request without a fee rate. *)
Theorem zero_fee_rate_is_not_used parseAmount sched args :
  fee_tokens_per_vbyte args = Some 0%Z ->
  (forall outs ins fee,
      In (CallFundPsbt outs ins fee)
         (trace (fund_transaction parseAmount sched args)) ->
      exists node, lnd args = Some node /\ getChainFeeRate node = inr fee) /\
  fund_transaction parseAmount sched args
  = fund_transaction parseAmount sched (without_fee_rate args).
Proof.
  intros Hz. split.
  - intros outs ins fee Hin. apply fund_call_of_validated in Hin.
    destruct Hin as (node & askfn & addrs & amts & explicit & qs & Hl & _ &
                     _ & _ & _ & _ & Hres & _ & _ & ->).
    apply resolve_inversion in Hres. destruct Hres as (Hfee & _).
    exists node. split; [assumption |]. unfold fee_rate. now rewrite Hz.
  - destruct args; cbn in Hz; subst. reflexivity.
Qed.

Lemma zero_fee_rate_is_not_used_witness :
  let args := Sample.request "0.001" (Some 0%Z) false false
                Sample.node [] in
  (forall outs ins fee,
      In (CallFundPsbt outs ins fee)
         (trace (fund_transaction Sample.parseAmount Sample.in_order args)) ->
      exists node, lnd args = Some node /\ getChainFeeRate node = inr fee) /\
  fund_transaction Sample.parseAmount Sample.in_order args
  = fund_transaction Sample.parseAmount Sample.in_order
      (without_fee_rate args).
Proof.
  exact (zero_fee_rate_is_not_used Sample.parseAmount Sample.in_order
           (Sample.request "0.001" (Some 0%Z) false false Sample.node [])
           eq_refl).
Defined.

(** ** The inputs argument *)

Lemma inputs_argument_cases (selected : list string) :
  (selected = [] -> inputs_argument selected = None) /\
  (selected <> [] ->
   inputs_argument selected = Some (map asInput (map asUtxo selected))).
Proof.
  unfold inputs_argument. destruct selected as [| s selected]; split;
    intros H; try reflexivity; try discriminate; contradiction.
Qed.

(** C6: every call of the funding primitive carries the coin list the
    selection step resolved: no [inputs] at all when that list is empty,
    as it is without explicit coins and without interactive selection,
    and the list of parsed input records when it is not empty, as with
    explicit coins. *)
Theorem inputs_omitted_for_empty_coin_list
        parseAmount sched args explicit outs ins fee :
  utxos args = Some explicit ->
  In (CallFundPsbt outs ins fee)
     (trace (fund_transaction parseAmount sched args)) ->
  (exists node askfn queried selected,
      lnd args = Some node /\ ask args = Some askfn /\
      outcome (resolve sched args node askfn explicit outs)
      = inr (queried, selected) /\
      (selected = [] -> ins = None) /\
      (selected <> [] ->
       ins = Some (map asInput (map asUtxo selected)))) /\
  (is_selecting_utxos args = false -> explicit = [] -> ins = None) /\
  (explicit <> [] -> ins = Some (map asInput (map asUtxo explicit))).
Proof.
  intros Hu Hin. pose proof (calls_only_after_validation _ _ _ _ Hin) as Hv.
  apply fund_call_of_validated in Hin.
  destruct Hin as (node & askfn & addrs & amts & explicit' & [q sel] & Hl &
                   Ha & _ & _ & Hu' & _ & Hres & _ & -> & _).
  rewrite Hu in Hu'. inversion Hu'. subst explicit'.
  pose proof (resolve_inversion _ _ _ _ _ _ _ Hres) as (_ & Hexp & _).
  cbn [snd] in *. split; [| split].
  - exists node, askfn, q, sel. repeat split; auto;
      apply inputs_argument_cases.
  - intros Hsel ->. rewrite (Hexp Hsel). reflexivity.
  - intros Hne.
    assert (Hsel : is_selecting_utxos args = false).
    { apply validate_passed in Hv.
      destruct Hv as (? & ? & ? & ? & ex & _ & _ & _ & _ & Hu2 & _ & _ &
                      [Hex | Hs]); [| assumption].
      rewrite Hu in Hu2. inversion Hu2. subst. contradiction. }
    rewrite (Hexp Hsel). now apply inputs_argument_cases.
Qed.

Lemma inputs_omitted_for_empty_coin_list_witness :
  let explicit := [(Sample.ab32 ++ ":0")%string] in
  let args := Sample.request "0.001" None false false Sample.node explicit in
  let outs := [{| address := "addr1"; output_tokens := 100000 |}] in
  let ins := Some [{| input_transaction_id := Sample.ab32;
                      input_transaction_vout := Js.Num 0 |}] in
  (exists node askfn queried selected,
      lnd args = Some node /\ ask args = Some askfn /\
      outcome (resolve Sample.in_order args node askfn explicit outs)
      = inr (queried, selected) /\
      (selected = [] -> ins = None) /\
      (selected <> [] ->
       ins = Some (map asInput (map asUtxo selected)))) /\
  (is_selecting_utxos args = false -> explicit = [] -> ins = None) /\
  (explicit <> [] -> ins = Some (map asInput (map asUtxo explicit))).
Proof.
  apply (inputs_omitted_for_empty_coin_list
           Sample.parseAmount Sample.in_order
           (Sample.request "0.001" None false false Sample.node
              [(Sample.ab32 ++ ":0")%string])
           [(Sample.ab32 ++ ":0")%string]
           [{| address := "addr1"; output_tokens := 100000 |}]
           (Some [{| input_transaction_id := Sample.ab32;
                     input_transaction_vout := Js.Num 0 |}])
           7%Z).
  - reflexivity.
  - vm_compute. tauto.
Defined.

(** ** Interactive selection on an empty wallet *)

Lemma resolve_empty_wallet sched args node askfn outs :
  is_selecting_utxos args = true ->
  getUtxos node minConfs = inr [] ->
  resolve sched args node askfn [] outs =
  ([], if fee_comes_first sched node
       then match getChainFeeRate node with
            | inl e => inl e
            | inr _ => inl empty_wallet_error
            end
       else inl empty_wallet_error).
Proof.
  intros Hsel Hget. unfold resolve, select_utxos. rewrite Hsel, Hget.
  destruct (fee_comes_first sched node); destruct (getChainFeeRate node);
    reflexivity.
Qed.

Lemma fee_comes_first_cases sched node :
  getUtxos node minConfs = inr [] ->
  fee_comes_first sched node =
  match getChainFeeRate node with
  | inl _ => fee_reply_first sched || fails_at_once sched CallGetChainFeeRate
  | inr _ => fee_reply_first sched
  end.
Proof.
  intros Hget. unfold fee_comes_first, immediate_failure. rewrite Hget.
  destruct (getChainFeeRate node); [| reflexivity].
  destruct (fails_at_once sched CallGetChainFeeRate);
    [now rewrite orb_true_r | now rewrite orb_false_r].
Qed.

(** C7, as stated, fails: with interactive selection on a wallet without
    confirmed coins, a fee query whose failure is delivered first makes
    the workflow fail with that failure, not with the empty-wallet
    error. *)
Lemma empty_wallet_error_counterexample :
  let args := Sample.request "0.001" None false true
                Sample.node_no_fee [] in
  validate args = None /\
  getUtxos Sample.node_no_fee minConfs = inr [] /\
  In (CallGetUtxos minConfs)
     (trace (fund_transaction Sample.parseAmount Sample.in_order args)) /\
  outcome (fund_transaction Sample.parseAmount Sample.in_order args)
  = inl (503%Z, "UnexpectedErrorGettingFeeRate") /\
  outcome (fund_transaction Sample.parseAmount Sample.in_order args)
  <> inl empty_wallet_error.
Proof.
  repeat split; try reflexivity.
  - vm_compute. tauto.
  - discriminate.
Qed.

(** C7, amended: with interactive selection enabled and an enumeration
    that returns no confirmed coin, the prompt is never invoked and the
    workflow fails.  Once the amounts have parsed, the failure is the
    empty-wallet error, unless the fee query has failed and its failure
    is delivered before the enumeration's reply (at once, or as the first
    of the two pending replies): then the workflow fails with the fee
    query's error. *)
Theorem empty_wallet_is_never_prompted parseAmount sched args node :
  validate args = None ->
  is_selecting_utxos args = true ->
  lnd args = Some node ->
  getUtxos node minConfs = inr [] ->
  calls_of is_ask (fund_transaction parseAmount sched args) = [] /\
  (exists e, outcome (fund_transaction parseAmount sched args) = inl e) /\
  (forall addrs amts outs,
      addresses args = Some addrs -> amounts args = Some amts ->
      outcome (derive_outputs parseAmount (combine addrs amts)) = inr outs ->
      (forall e,
          getChainFeeRate node = inl e ->
          fee_reply_first sched = true \/
          fails_at_once sched CallGetChainFeeRate = true ->
          outcome (fund_transaction parseAmount sched args) = inl e) /\
      ((exists queried, getChainFeeRate node = inr queried) \/
       (fee_reply_first sched = false /\
        fails_at_once sched CallGetChainFeeRate = false) ->
       outcome (fund_transaction parseAmount sched args)
       = inl empty_wallet_error)).
Proof.
  intros Hv Hsel Hl Hget.
  destruct (validate_passed _ Hv)
    as (node' & askfn & addrs & amts & explicit & Hl' & Ha & Had & Ham &
        Hu & _ & _ & Hex).
  rewrite Hl in Hl'. inversion Hl'. subst node'.
  destruct Hex as [-> | Hf]; [| congruence].
  rewrite (fund_transaction_validated parseAmount sched args
             node askfn addrs amts []) by assumption.
  destruct (immediate_failure sched CallGetChainFeeRate
              (getChainFeeRate node)) as [e |] eqn:Himm.
  { rewrite (run_validated_at_once _ _ _ _ _ _ _ _ _ Himm).
    unfold immediate_failure in Himm.
    destruct (getChainFeeRate node) as [e' |] eqn:Hfee; [| discriminate].
    destruct (fails_at_once sched CallGetChainFeeRate) eqn:Hat;
      [| discriminate].
    inversion Himm; subst e'.
    split; [reflexivity |]. split; [now exists e |].
    intros addrs' amts' outs _ _ _. split.
    - intros e' He' _. now inversion He'.
    - intros [[q Hq] | [_ Hno]]; discriminate. }
  unfold calls_of.
  rewrite run_validated_trace, run_validated_outcome by assumption.
  cbn [filter is_ask]. rewrite filter_app.
  fold (calls_of is_ask (derive_outputs parseAmount (combine addrs amts))).
  rewrite derive_outputs_quiet by reflexivity. cbn [app].
  destruct (outcome (derive_outputs parseAmount (combine addrs amts)))
    as [e | outs] eqn:Hout.
  { split; [reflexivity |]. split; [now exists e |].
    intros addrs' amts' outs Had' Ham' Hout'.
    rewrite Had in Had'. rewrite Ham in Ham'.
    inversion Had'. inversion Ham'. subst addrs' amts'. congruence. }
  rewrite resolve_empty_wallet by assumption.
  rewrite fee_comes_first_cases by assumption.
  rewrite filter_app.
  fold (calls_of is_ask (issue_getUtxos sched args node)).
  rewrite issue_getUtxos_quiet by reflexivity.
  cbn [trace outcome fst snd app filter].
  split; [| split].
  - destruct (getChainFeeRate node);
      destruct (fee_reply_first sched);
      destruct (fails_at_once sched CallGetChainFeeRate); reflexivity.
  - destruct (getChainFeeRate node) as [e |];
      destruct (fee_reply_first sched);
      destruct (fails_at_once sched CallGetChainFeeRate); cbn; eauto.
  - intros addrs' amts' outs' _ _ _. split.
    + intros e He Hfirst. rewrite He.
      destruct Hfirst as [-> | ->]; [reflexivity |].
      now rewrite orb_true_r.
    + intros [[q ->] | [-> ->]].
      * now destruct (fee_reply_first sched).
      * now destruct (getChainFeeRate node).
Qed.

Lemma empty_wallet_is_never_prompted_witness :
  let run := fund_transaction Sample.parseAmount Sample.in_order
               (Sample.request "0.001" None false true
                  Sample.node_empty []) in
  calls_of is_ask run = [] /\ outcome run = inl empty_wallet_error.
Proof.
  pose proof (empty_wallet_is_never_prompted
                Sample.parseAmount Sample.in_order
                (Sample.request "0.001" None false true
                   Sample.node_empty [])
                Sample.node_empty eq_refl eq_refl eq_refl eq_refl)
    as (Hno & _ & Hout).
  split; [exact Hno |].
  apply (Hout ["addr1"] ["0.001"]
           [{| address := "addr1"; output_tokens := 100000 |}]
           eq_refl eq_refl eq_refl).
  left. now exists 7%Z.
Defined.

(** ** Where the dust floor is checked *)

Lemma resolve_prompted sched args node askfn outs queried coins :
  is_selecting_utxos args = true ->
  getChainFeeRate node = inr queried ->
  getUtxos node minConfs = inr coins -> coins <> [] ->
  resolve sched args node askfn [] outs =
  ([CallAsk (choices (selection_question coins outs))],
   inr (queried, askfn (selection_question coins outs))).
Proof.
  intros Hsel Hfee Hget Hne. unfold resolve, select_utxos.
  rewrite Hsel, Hfee, Hget.
  destruct coins as [| c coins]; [contradiction |].
  destruct (fee_comes_first sched node); reflexivity.
Qed.

(** C10: the dust floor is checked by the funding step only, after the
    fee rate and the coin list are resolved: a failure of that resolution
    is the workflow's failure even with an output below the floor, and
    with interactive selection on a wallet that has confirmed coins the
    prompt is the last call issued before the workflow fails with the
    dust-output error. *)
Theorem dust_checked_after_selection
        parseAmount sched args node askfn addrs amts outs :
  validate args = None ->
  lnd args = Some node -> ask args = Some askfn ->
  addresses args = Some addrs -> amounts args = Some amts ->
  outcome (derive_outputs parseAmount (combine addrs amts)) = inr outs ->
  Exists (fun o => (output_tokens o < dustValue)%Z) outs ->
  (forall explicit e,
      utxos args = Some explicit ->
      outcome (resolve sched args node askfn explicit outs) = inl e ->
      outcome (fund_transaction parseAmount sched args) = inl e) /\
  (forall queried coins,
      is_selecting_utxos args = true ->
      getChainFeeRate node = inr queried ->
      getUtxos node minConfs = inr coins -> coins <> [] ->
      trace (fund_transaction parseAmount sched args)
      = (CallGetChainFeeRate ::
         trace (derive_outputs parseAmount (combine addrs amts)) ++
         [CallGetUtxos minConfs;
          CallAsk (choices (selection_question coins outs))])%list /\
      outcome (fund_transaction parseAmount sched args) = inl dust_error).
Proof.
  intros Hv Hl Ha Had Ham Hout Hdust. apply has_dust_Exists in Hdust.
  destruct (validate_passed _ Hv)
    as (node' & askfn' & addrs' & amts' & explicit & Hl' & Ha' & Had' &
        Ham' & Hu & _ & _ & Hex).
  rewrite Hl in Hl'. rewrite Ha in Ha'. rewrite Had in Had'.
  rewrite Ham in Ham'.
  inversion Hl'. inversion Ha'. inversion Had'. inversion Ham'.
  subst node' askfn' addrs' amts'.
  rewrite (fund_transaction_validated parseAmount sched args
             node askfn addrs amts explicit) by assumption.
  destruct (immediate_failure sched CallGetChainFeeRate
              (getChainFeeRate node)) as [e0 |] eqn:Himm.
  { rewrite (run_validated_at_once _ _ _ _ _ _ _ _ _ Himm).
    pose proof (immediate_failure_is_failure _ _ _ _ Himm) as Hfee.
    split.
    - intros explicit' e Hu' Hres. rewrite Hu in Hu'. inversion Hu'. subst.
      rewrite (resolve_after_immediate_fee_failure
                 sched args node askfn explicit' outs e0 Hex Himm) in Hres.
      inversion Hres. reflexivity.
    - intros queried coins _ Hq. congruence. }
  rewrite run_validated_trace, run_validated_outcome by assumption.
  rewrite Hout.
  split.
  - intros explicit' e Hu' Hres. rewrite Hu in Hu'. inversion Hu'. subst.
    now rewrite Hres.
  - intros queried coins Hsel Hfee Hget Hne.
    destruct Hex as [-> | Hf]; [| congruence].
    rewrite (resolve_prompted sched args node askfn outs queried coins)
      by assumption.
    cbn [trace outcome fst snd]. rewrite fund_unfold, Hdust.
    unfold issue_getUtxos. rewrite Hsel, issue_unfold.
    rewrite (no_immediate_failure_of_success _ _ _ _ Hget).
    cbn [negb trace fst snd app].
    split; reflexivity.
Qed.

Lemma dust_checked_after_selection_witness :
  let args := Sample.request "0.000001" None false true Sample.node [] in
  let outs := [{| address := "addr1"; output_tokens := 100 |}] in
  trace (fund_transaction Sample.parseAmount Sample.in_order args)
  = [CallGetChainFeeRate; CallParseAmount "0.000001";
     CallGetUtxos minConfs;
     CallAsk (choices (selection_question [Sample.coin] outs))] /\
  outcome (fund_transaction Sample.parseAmount Sample.in_order args)
  = inl dust_error.
Proof.
  assert (Hdust : Exists (fun o => (output_tokens o < dustValue)%Z)
                    [{| address := "addr1"; output_tokens := 100 |}]).
  { apply Exists_cons_hd. unfold dustValue. simpl. lia. }
  assert (Hcoins : [Sample.coin] <> []) by discriminate.
  exact (proj2 (dust_checked_after_selection
                  Sample.parseAmount Sample.in_order
                  (Sample.request "0.000001" None false true Sample.node [])
                  Sample.node Sample.pick_all ["addr1"] ["0.000001"]
                  [{| address := "addr1"; output_tokens := 100 |}]
                  eq_refl eq_refl eq_refl eq_refl eq_refl eq_refl Hdust)
               7%Z [Sample.coin] eq_refl eq_refl eq_refl Hcoins).
Defined.

(** ** Explicit coins *)

Lemma slice_split (n : nat) (s : string) :
  s = Js.slice_to n s ++ Js.slice_from n s.
Proof.
  revert s. induction n as [| n IH]; intros [| c s]; simpl;
    try reflexivity.
  now rewrite <- IH.
Qed.

Lemma slice_from_succ (n : nat) (s : string) :
  Js.slice_from (S n) s = Js.slice_from 1 (Js.slice_from n s).
Proof.
  revert s. induction n as [| n IH]; intros [| c s]; try reflexivity.
  change (Js.slice_from (S (S n)) (String c s))
    with (Js.slice_from (S n) s).
  rewrite IH. reflexivity.
Qed.

Lemma slice_to_append (a b : string) :
  Js.slice_to (String.length a) (a ++ b) = a.
Proof.
  induction a as [| c a IH]; simpl; [now destruct b | now rewrite IH].
Qed.

Lemma slice_from_append (a b : string) :
  Js.slice_from (String.length a) (a ++ b) = b.
Proof.
  induction a as [| c a IH]; simpl; [now destruct b | exact IH].
Qed.

Lemma string_of_uint_shape (u : Decimal.uint) :
  Js.all_chars Js.is_digit (NilEmpty.string_of_uint u) = true /\
  String.length (NilEmpty.string_of_uint u) = Decimal.nb_digits u.
Proof.
  induction u as [| u [IH1 IH2] | u [IH1 IH2] | u [IH1 IH2] | u [IH1 IH2]
                 | u [IH1 IH2] | u [IH1 IH2] | u [IH1 IH2] | u [IH1 IH2]
                 | u [IH1 IH2] | u [IH1 IH2]];
    simpl; rewrite ?IH1, ?IH2; auto.
Qed.

Lemma digits_parse (r : string) :
  Js.all_chars Js.is_digit r = true ->
  exists u, NilEmpty.uint_of_string r = Some u /\
            NilEmpty.string_of_uint u = r.
Proof.
  induction r as [| c r IH]; intros H.
  - exists Decimal.Nil. now split.
  - cbn [Js.all_chars] in H. apply andb_true_iff in H.
    destruct H as [Hc Hr]. destruct (IH Hr) as (u & Hu & Hs).
    cbn [NilEmpty.uint_of_string]. rewrite Hu.
    destruct c as [[|] [|] [|] [|] [|] [|] [|] [|]];
      try discriminate Hc;
      eexists; (split; [reflexivity | simpl; now rewrite Hs]).
Qed.

Lemma Number_digits (r : string) (u : Decimal.uint) :
  r <> "" -> NilEmpty.uint_of_string r = Some u ->
  Js.all_chars Js.is_digit r = true ->
  Js.Number r = Js.Num (N.of_uint u).
Proof.
  intros Hne Hu Hd. unfold Js.Number.
  destruct r as [| c r]; [contradiction |]. now rewrite Hd, Hu.
Qed.

(** C8, as stated, fails: the canonical coin string with index [00]
    converts to index 0, and re-forming gives the string with index [0]. *)
Lemma leading_zero_index_counterexample :
  let coin := Sample.ab32 ++ ":00" in
  isOutpoint coin = true /\
  asInput (asUtxo coin)
  = {| input_transaction_id := Sample.ab32;
       input_transaction_vout := Js.Num 0 |} /\
  asOutpoint (asInput (asUtxo coin)) = Sample.ab32 ++ ":0" /\
  asOutpoint (asInput (asUtxo coin)) <> coin.
Proof.
  repeat split; try reflexivity. vm_compute. discriminate.
Qed.

Lemma outpoint_shape (s : string) :
  isOutpoint s = true ->
  exists u,
    String.length (Js.slice_to 64 s) = 64%nat /\
    Js.all_chars Js.is_hex (Js.slice_to 64 s) = true /\
    s = Js.slice_to 64 s ++ ":" ++ NilEmpty.string_of_uint u /\
    Js.slice_from 65 s = NilEmpty.string_of_uint u /\
    NilEmpty.uint_of_string (Js.slice_from 65 s) = Some u /\
    (1 <= Decimal.nb_digits u <= 6)%nat.
Proof.
  unfold isOutpoint. rewrite !andb_true_iff.
  intros [[[[[[_ Hlen] Hhex] Hcolon] Hmin] Hmax] Hdig].
  apply Nat.eqb_eq in Hlen. apply String.eqb_eq in Hcolon.
  apply Nat.leb_le in Hmin. apply Nat.leb_le in Hmax.
  destruct (digits_parse _ Hdig) as (u & Hu & Hs).
  exists u. repeat split; auto.
  - rewrite Hs. rewrite (slice_split 64 s) at 1. f_equal.
    rewrite (slice_split 1 (Js.slice_from 64 s)), Hcolon.
    now rewrite <- slice_from_succ.
  - rewrite <- (proj2 (string_of_uint_shape u)), Hs. exact Hmin.
  - rewrite <- (proj2 (string_of_uint_shape u)), Hs. exact Hmax.
Qed.

Lemma isOutpoint_formed (hash : string) (u : Decimal.uint) :
  String.length hash = 64%nat ->
  Js.all_chars Js.is_hex hash = true ->
  (1 <= Decimal.nb_digits u <= 6)%nat ->
  isOutpoint (hash ++ ":" ++ NilEmpty.string_of_uint u) = true /\
  asUtxo (hash ++ ":" ++ NilEmpty.string_of_uint u)
  = {| id := hash; vout := Js.Num (N.of_uint u) |}.
Proof.
  intros Hlen Hhex Hnb.
  set (r := NilEmpty.string_of_uint u).
  assert (Hto : Js.slice_to 64 (hash ++ ":" ++ r) = hash)
    by (rewrite <- Hlen; apply slice_to_append).
  assert (Hfrom : Js.slice_from 64 (hash ++ ":" ++ r) = ":" ++ r)
    by (rewrite <- Hlen; apply slice_from_append).
  assert (Hrest : Js.slice_from 65 (hash ++ ":" ++ r) = r)
    by (rewrite slice_from_succ, Hfrom; reflexivity).
  destruct (string_of_uint_shape u) as [Hdig Hl]. fold r in Hdig, Hl.
  split.
  - unfold isOutpoint. rewrite Hto, Hfrom, Hrest, Hlen, Hhex, Hdig, Hl.
    assert (Ht : Js.truthy (hash ++ ":" ++ r) = true)
      by (destruct hash; [discriminate Hlen | reflexivity]).
    rewrite Ht. cbn [Js.slice_to String.append andb Nat.eqb].
    destruct Hnb as [H1 H6].
    apply Nat.leb_le in H1. apply Nat.leb_le in H6.
    now rewrite H1, H6.
  - unfold asUtxo. rewrite Hto, Hrest. f_equal.
    apply Number_digits.
    + intros E. rewrite E in Hl. simpl in Hl. lia.
    + apply NilEmpty.usu.
    + exact Hdig.
Qed.

(** C8, amended: a coin string of the canonical form is its 64 character
    hash, a colon and one to six digits; the funder's input record holds
    exactly that hash and the numeric value of the digits.  Re-forming
    [<transaction_id>:<transaction_vout>] gives the hash with the index
    written without leading zeros: a canonical string that converts to
    the same input record, and the original string whenever its index has
    no leading zero. *)
Theorem explicit_coin_converted (s : string) :
  isOutpoint s = true ->
  exists (hash : string) (u : Decimal.uint),
    hash = Js.slice_to 64 s /\
    String.length hash = 64%nat /\
    s = hash ++ ":" ++ NilEmpty.string_of_uint u /\
    asInput (asUtxo s)
    = {| input_transaction_id := hash;
         input_transaction_vout := Js.Num (N.of_uint u) |} /\
    asOutpoint (asInput (asUtxo s))
    = hash ++ ":" ++ NilEmpty.string_of_uint (Decimal.unorm u) /\
    isOutpoint (asOutpoint (asInput (asUtxo s))) = true /\
    asInput (asUtxo (asOutpoint (asInput (asUtxo s)))) = asInput (asUtxo s) /\
    (Decimal.unorm u = u -> asOutpoint (asInput (asUtxo s)) = s).
Proof.
  intros H.
  destruct (outpoint_shape s H) as (u & Hlen & Hhex & Hs & Hrest & Hu & Hnb).
  exists (Js.slice_to 64 s), u.
  assert (Hne : Js.slice_from 65 s <> "").
  { intros E. rewrite E in Hrest.
    pose proof (proj2 (string_of_uint_shape u)) as Hl.
    rewrite <- Hrest in Hl. simpl in Hl. lia. }
  assert (Hin : asInput (asUtxo s)
                = {| input_transaction_id := Js.slice_to 64 s;
                     input_transaction_vout := Js.Num (N.of_uint u) |}).
  { unfold asInput, asUtxo. cbn [id vout]. f_equal.
    apply Number_digits; auto.
    rewrite Hrest. apply string_of_uint_shape. }
  assert (Hout : asOutpoint (asInput (asUtxo s))
                 = Js.slice_to 64 s ++ ":"
                     ++ NilEmpty.string_of_uint (Decimal.unorm u)).
  { rewrite Hin. unfold asOutpoint.
    cbn [transaction_id transaction_vout Input_outpointed
         input_transaction_id input_transaction_vout Js.num_to_string].
    now rewrite DecimalN.Unsigned.to_of. }
  assert (Hnb' : (1 <= Decimal.nb_digits (Decimal.unorm u) <= 6)%nat).
  { split.
    - pose proof (DecimalFacts.unorm_nonnil u) as Hnn.
      destruct (Decimal.nb_digits (Decimal.unorm u)) eqn:E; [| lia].
      apply DecimalFacts.nb_digits_0 in E. contradiction.
    - assert (Hu' : u <> Decimal.Nil)
        by (intros ->; simpl in Hnb; lia).
      pose proof (DecimalFacts.nb_digits_unorm u Hu'). lia. }
  destruct (isOutpoint_formed (Js.slice_to 64 s) (Decimal.unorm u)
              Hlen Hhex Hnb') as [Hok Hre].
  repeat split; auto.
  - rewrite Hout. exact Hok.
  - rewrite Hout, Hre, Hin. unfold asInput. cbn [id vout].
    now rewrite DecimalN.Unsigned.of_uint_norm.
  - intros Hnorm. now rewrite Hout, Hnorm.
Qed.

Lemma explicit_coin_converted_witness :
  exists (hash : string) (u : Decimal.uint),
    let s := Sample.ab32 ++ ":0" in
    hash = Js.slice_to 64 s /\
    String.length hash = 64%nat /\
    s = hash ++ ":" ++ NilEmpty.string_of_uint u /\
    asInput (asUtxo s)
    = {| input_transaction_id := hash;
         input_transaction_vout := Js.Num (N.of_uint u) |} /\
    asOutpoint (asInput (asUtxo s))
    = hash ++ ":" ++ NilEmpty.string_of_uint (Decimal.unorm u) /\
    isOutpoint (asOutpoint (asInput (asUtxo s))) = true /\
    asInput (asUtxo (asOutpoint (asInput (asUtxo s)))) = asInput (asUtxo s) /\
    (Decimal.unorm u = u -> asOutpoint (asInput (asUtxo s)) = s).
Proof.
  apply (explicit_coin_converted (Sample.ab32 ++ ":0")). reflexivity.
Defined.


(** * Further properties of the workflow *)

(** ** What validation accepts *)

Lemma no_public_key_found (addrs : list string) :
  found_truthy (find isPublicKey addrs) = false <->
  Forall (fun a => isPublicKey a = false) addrs.
Proof.
  induction addrs as [| a addrs IH]; cbn [find].
  - split; [constructor | reflexivity].
  - destruct (isPublicKey a) eqn:Ha.
    + split.
      * cbn [found_truthy]. unfold isPublicKey in Ha.
        apply andb_true_iff in Ha. destruct Ha as [Ht _].
        rewrite Ht. discriminate.
      * intros H. inversion H; subst. congruence.
    + rewrite IH. split; [now constructor | intros H; now inversion H].
Qed.

Lemma no_malformed_coin_found (coins : list string) :
  found_truthy (find (fun n => negb (isOutpoint n)) coins) = false <->
  Forall (fun n => isOutpoint n = true) coins \/
  exists before rest,
    coins = (before ++ "" :: rest)%list /\
    Forall (fun n => isOutpoint n = true) before.
Proof.
  induction coins as [| c coins IH]; cbn [find].
  - split; [left; constructor | reflexivity].
  - destruct (isOutpoint c) eqn:Hc; cbn [negb].
    + rewrite IH. split.
      * intros [H | (before & rest & -> & H)].
        -- left. now constructor.
        -- right. exists (c :: before), rest. split; [reflexivity |].
           now constructor.
      * intros [H | (before & rest & Heq & H)].
        -- left. now inversion H.
        -- destruct before as [| b before].
           ++ inversion Heq; subst. discriminate Hc.
           ++ inversion Heq; subst. right. exists before, rest.
              split; [reflexivity | now inversion H].
    + cbn [found_truthy]. split.
      * intros Ht. right. exists [], coins. split; [| constructor].
        destruct c; [reflexivity | discriminate Ht].
      * intros [H | (before & rest & Heq & H)].
        -- inversion H; subst. congruence.
        -- destruct before as [| b before].
           ++ inversion Heq; subst. reflexivity.
           ++ inversion Heq; subst. inversion H; subst. congruence.
Qed.

(** X1: validation passes exactly when the node handle and the prompt are
    present, addresses and amounts are arrays of one non-zero length, no
    address is a public key, the coins are an array in which every entry
    before the first empty string (every entry, when there is none) is an
    outpoint, and a non-empty coin list does not come with the selection
    flag. *)
Theorem validate_accepts_exactly (args : Args) :
  validate args = None <->
  exists node askfn addrs amts coins,
    lnd args = Some node /\ ask args = Some askfn /\
    addresses args = Some addrs /\ amounts args = Some amts /\
    utxos args = Some coins /\
    addrs <> [] /\ List.length addrs = List.length amts /\
    Forall (fun a => isPublicKey a = false) addrs /\
    (Forall (fun n => isOutpoint n = true) coins \/
     exists before rest,
       coins = (before ++ "" :: rest)%list /\
       Forall (fun n => isOutpoint n = true) before) /\
    (coins = [] \/ is_selecting_utxos args = false).
Proof.
  unfold validate. split.
  - destruct (lnd args) as [node |]; [| discriminate].
    destruct (amounts args) as [amts |]; [| discriminate].
    destruct (addresses args) as [addrs |]; [| discriminate].
    destruct addrs as [| a addrs]; [discriminate |]. cbn [is_empty].
    destruct (Nat.eqb_spec (List.length (a :: addrs)) (List.length amts));
      [| discriminate]. cbn [negb].
    destruct (found_truthy (find isPublicKey _)) eqn:Hpk; [discriminate |].
    destruct (ask args) as [askfn |]; [| discriminate].
    destruct (utxos args) as [coins |]; [| discriminate].
    destruct (found_truthy (find _ coins)) eqn:Hco; [discriminate |].
    intros H. exists node, askfn, (a :: addrs), amts, coins.
    repeat split; auto; try discriminate.
    + now apply no_public_key_found.
    + now apply no_malformed_coin_found.
    + destruct coins; [now left |]. cbn [is_empty negb andb] in H.
      destruct (is_selecting_utxos args); [discriminate | now right].
  - intros (node & askfn & addrs & amts & coins & -> & -> & -> & -> & -> &
            Hne & Hlen & Hpk & Hco & Hsel).
    destruct addrs as [| a addrs]; [contradiction |]. cbn [is_empty].
    rewrite Hlen, Nat.eqb_refl. cbn [negb].
    apply no_public_key_found in Hpk. rewrite Hpk.
    apply no_malformed_coin_found in Hco. rewrite Hco.
    destruct Hsel as [-> | ->]; [reflexivity |].
    now rewrite andb_false_r.
Qed.

(** X2: a rejected request issues no call and fails with the validation
    error, whose code is 400; every accepted request starts by querying
    the fee rate. *)
Theorem calls_start_after_validation parseAmount sched args :
  match validate args with
  | Some e =>
      fund_transaction parseAmount sched args = ([], inl e) /\
      fst e = 400%Z
  | None =>
      hd_error (trace (fund_transaction parseAmount sched args))
      = Some CallGetChainFeeRate
  end.
Proof.
  destruct (validate args) as [e |] eqn:Hv.
  - split; [| now apply (validate_code args)].
    unfold fund_transaction. now rewrite Hv.
  - destruct (validate_passed _ Hv)
      as (node & askfn & addrs & amts & explicit & Hl & Ha & Had & Ham &
          Hu & _).
    rewrite (fund_transaction_validated parseAmount sched args
               node askfn addrs amts explicit) by assumption.
    destruct (run_validated_starts parseAmount sched args node askfn
                addrs amts explicit) as (rest & ->).
    reflexivity.
Qed.

(** ** Deriving the outputs *)

Lemma derive_outputs_cons parseAmount addr amount rest :
  derive_outputs parseAmount ((addr, amount) :: rest) =
  match parseAmount amount with
  | inl message => ([CallParseAmount amount], inl (400%Z, message))
  | inr toks =>
      (CallParseAmount amount :: trace (derive_outputs parseAmount rest),
       match outcome (derive_outputs parseAmount rest) with
       | inl e => inl e
       | inr outs =>
           inr ({| address := addr; output_tokens := toks |} :: outs)
       end)
  end.
Proof.
  cbn [derive_outputs]. destruct (parseAmount amount) as [m | toks];
    [reflexivity |].
  destruct (derive_outputs parseAmount rest) as [t [e | outs]];
    [reflexivity |].
  unfold bind, emit, ret, trace, outcome. cbn [fst snd app].
  now rewrite List.app_nil_r.
Qed.

Lemma derive_outputs_failure parseAmount addrs good bad rest message :
  List.length addrs = List.length (good ++ bad :: rest) ->
  Forall (fun amount => exists toks, parseAmount amount = inr toks) good ->
  parseAmount bad = inl message ->
  derive_outputs parseAmount (combine addrs (good ++ bad :: rest)) =
  (map CallParseAmount (good ++ [bad]), inl (400%Z, message)).
Proof.
  intros Hlen Hgood Hbad. revert addrs Hlen.
  induction Hgood as [| g good [toks Hg] _ IH]; intros [| a addrs] Hlen;
    try discriminate Hlen.
  - cbn [app combine]. now rewrite derive_outputs_cons, Hbad.
  - cbn [app combine]. rewrite derive_outputs_cons, Hg.
    injection Hlen as Hlen. rewrite (IH addrs Hlen). reflexivity.
Qed.

Lemma derive_outputs_success parseAmount addrs amts outs :
  List.length addrs = List.length amts ->
  outcome (derive_outputs parseAmount (combine addrs amts)) = inr outs ->
  trace (derive_outputs parseAmount (combine addrs amts))
  = map CallParseAmount amts /\
  map address outs = addrs /\
  Forall2 (fun amount o => parseAmount amount = inr (output_tokens o))
          amts outs.
Proof.
  revert amts outs.
  induction addrs as [| a addrs IH]; intros [| amt amts] outs Hlen;
    try discriminate Hlen.
  - cbn. intros H. inversion H; subst. repeat split; constructor.
  - cbn [combine]. rewrite derive_outputs_cons.
    destruct (parseAmount amt) as [m | toks] eqn:Hp; [discriminate |].
    cbn [outcome trace fst snd].
    destruct (outcome (derive_outputs parseAmount (combine addrs amts)))
      as [e | outs'] eqn:Hrest; [discriminate |].
    intros H. inversion H; subst. injection Hlen as Hlen.
    destruct (IH amts outs' Hlen Hrest) as (Ht & Ha & Hf).
    cbn [map address output_tokens]. rewrite Ht, Ha.
    repeat split. now constructor.
Qed.

(** X3: when an amount fails to parse, the workflow fails with code 400
    and the parser's message, after the fee query has been issued and the
    amounts up to the failing one have been parsed, and nothing else is
    called: no later amount, no enumeration, prompt, funding or signing.
    The one exception is a fee query that has failed at once: then the
    run ends with the fee query's call and error and nothing is parsed. *)
Theorem parse_failure_stops_the_run
        parseAmount sched args node addrs good bad rest message :
  validate args = None ->
  lnd args = Some node ->
  addresses args = Some addrs ->
  amounts args = Some (good ++ bad :: rest)%list ->
  Forall (fun amount => exists toks, parseAmount amount = inr toks) good ->
  parseAmount bad = inl message ->
  fund_transaction parseAmount sched args =
  match getChainFeeRate node with
  | inl e =>
      if fails_at_once sched CallGetChainFeeRate
      then ([CallGetChainFeeRate], inl e)
      else (CallGetChainFeeRate :: map CallParseAmount (good ++ [bad]),
            inl (400%Z, message))
  | inr _ =>
      (CallGetChainFeeRate :: map CallParseAmount (good ++ [bad]),
       inl (400%Z, message))
  end.
Proof.
  intros Hv Hl Had Ham Hgood Hbad.
  destruct (validate_passed _ Hv)
    as (node' & askfn & addrs' & amts' & explicit & Hl' & Ha & Had' & Ham' &
        Hu & _ & Hlen & _).
  rewrite Hl in Hl'. rewrite Had in Had'. rewrite Ham in Ham'.
  inversion Hl'. inversion Had'. inversion Ham'. subst node' addrs' amts'.
  rewrite (fund_transaction_validated parseAmount sched args
             node askfn addrs (good ++ bad :: rest) explicit)
    by assumption.
  assert (Hparse :
            immediate_failure sched CallGetChainFeeRate
              (getChainFeeRate node) = None ->
            run_validated parseAmount sched args node askfn addrs
              (good ++ bad :: rest) explicit
            = (CallGetChainFeeRate :: map CallParseAmount (good ++ [bad]),
               inl (400%Z, message))).
  { intros Himm.
    rewrite (surjective_M (run_validated _ _ _ _ _ _ _ _)).
    rewrite run_validated_trace, run_validated_outcome by assumption.
    rewrite (derive_outputs_failure parseAmount addrs good bad rest
               message) by assumption.
    cbn [trace outcome fst snd]. now rewrite List.app_nil_r. }
  unfold immediate_failure in Hparse.
  destruct (getChainFeeRate node) as [e | q] eqn:Hfee; [| now apply Hparse].
  destruct (fails_at_once sched CallGetChainFeeRate) eqn:Hat;
    [| now apply Hparse].
  apply run_validated_at_once. unfold immediate_failure.
  now rewrite Hfee, Hat.
Qed.

Lemma parse_failure_stops_the_run_witness :
  fund_transaction Sample.parseAmount Sample.at_once
    (Sample.request "1 btc" None false true Sample.node [])
  = ([CallGetChainFeeRate; CallParseAmount "1 btc"],
     inl (400%Z, "UnrecognizedAmount")) /\
  fund_transaction Sample.parseAmount Sample.at_once
    (Sample.request "1 btc" None false true Sample.node_no_fee [])
  = ([CallGetChainFeeRate],
     inl (503%Z, "UnexpectedErrorGettingFeeRate")).
Proof.
  assert (Hgood : Forall (fun amount =>
                            exists toks,
                              Sample.parseAmount amount = inr toks) [])
    by constructor.
  split.
  - exact (parse_failure_stops_the_run Sample.parseAmount Sample.at_once
             (Sample.request "1 btc" None false true Sample.node [])
             Sample.node ["addr1"] [] "1 btc" [] "UnrecognizedAmount"
             eq_refl eq_refl eq_refl eq_refl Hgood eq_refl).
  - exact (parse_failure_stops_the_run Sample.parseAmount Sample.at_once
             (Sample.request "1 btc" None false true Sample.node_no_fee [])
             Sample.node_no_fee ["addr1"] [] "1 btc" []
             "UnrecognizedAmount"
             eq_refl eq_refl eq_refl eq_refl Hgood eq_refl).
Defined.

(** X4: the outputs handed to the funding primitive pair every address,
    in the order given, with the token count the parser returned for the
    amount at the same position. *)
Theorem funded_outputs_follow_the_request
        parseAmount sched args addrs amts outs ins fee :
  addresses args = Some addrs -> amounts args = Some amts ->
  In (CallFundPsbt outs ins fee)
     (trace (fund_transaction parseAmount sched args)) ->
  map address outs = addrs /\
  Forall2 (fun amount o => parseAmount amount = inr (output_tokens o))
          amts outs.
Proof.
  intros Had Ham Hin.
  pose proof (calls_only_after_validation _ _ _ _ Hin) as Hv.
  apply validate_passed in Hv.
  destruct Hv as (_ & _ & addrs0 & amts0 & _ & _ & _ & Had0 & Ham0 & _ &
                  _ & Hlen & _).
  apply fund_call_of_validated in Hin.
  destruct Hin as (node & askfn & addrs' & amts' & explicit & qs & _ & _ &
                   Had' & Ham' & _ & Hout & _).
  rewrite Had in Had', Had0. rewrite Ham in Ham', Ham0.
  inversion Had'. inversion Ham'. inversion Had0. inversion Ham0. subst.
  now apply derive_outputs_success in Hout.
Qed.

Lemma funded_outputs_follow_the_request_witness :
  map address [{| address := "addr1"; output_tokens := 100000 |}]
  = ["addr1"] /\
  Forall2 (fun amount o =>
             Sample.parseAmount amount = inr (output_tokens o))
          ["0.001"] [{| address := "addr1"; output_tokens := 100000 |}].
Proof.
  apply (funded_outputs_follow_the_request
           Sample.parseAmount Sample.in_order
           (Sample.request "0.001" None false false Sample.node [])
           ["addr1"] ["0.001"]
           [{| address := "addr1"; output_tokens := 100000 |}] None 7%Z);
    try reflexivity.
  vm_compute. tauto.
Defined.

(** ** Calls of one kind in a validated run *)

Lemma run_validated_calls kind parseAmount sched args node askfn
      addrs amts explicit :
  immediate_failure sched CallGetChainFeeRate (getChainFeeRate node)
  = None ->
  calls_of kind
    (run_validated parseAmount sched args node askfn addrs amts explicit)
  = (filter kind [CallGetChainFeeRate] ++
     calls_of kind (derive_outputs parseAmount (combine addrs amts)) ++
     match outcome (derive_outputs parseAmount (combine addrs amts)) with
     | inl _ => []
     | inr outs =>
       calls_of kind (issue_getUtxos sched args node) ++
       calls_of kind (resolve sched args node askfn explicit outs) ++
       match outcome (resolve sched args node askfn explicit outs) with
       | inl _ => []
       | inr qs =>
         calls_of kind (fund args node (fst qs) outs (snd qs)) ++
         match outcome (fund args node (fst qs) outs (snd qs)) with
         | inl _ => []
         | inr funded => calls_of kind (finish sched args node funded)
         end
       end
     end)%list.
Proof.
  intros Himm. unfold calls_of. rewrite run_validated_trace by assumption.
  change (CallGetChainFeeRate ::
          trace (derive_outputs parseAmount (combine addrs amts)) ++ ?x)%list
    with ([CallGetChainFeeRate] ++
          trace (derive_outputs parseAmount (combine addrs amts)) ++ x)%list.
  rewrite !filter_app. do 2 f_equal.
  destruct (outcome (derive_outputs _ _)); [reflexivity |].
  rewrite !filter_app. do 2 f_equal.
  destruct (outcome (resolve _ _ _ _ _ _)); [reflexivity |].
  rewrite !filter_app. f_equal.
  now destruct (outcome (fund _ _ _ _ _)).
Qed.

(** The sign task starts unless the unlock task has failed at once. *)
Lemma finish_signs sched args node funded :
  calls_of is_sign (finish sched args node funded)
  = if unlock_fails_at_once sched args node funded then []
    else [CallSignPsbt (psbt funded)].
Proof.
  unfold calls_of. rewrite finish_trace, filter_app.
  assert (Hu : filter is_sign (unlock_calls funded) = []).
  { unfold unlock_calls. induction (inputs funded); [reflexivity | auto]. }
  destruct (is_dry_run args);
    destruct (unlock_fails_at_once sched args node funded);
    rewrite ?Hu; reflexivity.
Qed.

Lemma first_unlock_error_none node ins :
  first_unlock_error node ins = None <->
  Forall (fun input =>
            unlockUtxo node (lock_id input) (transaction_id input)
              (transaction_vout input) = None) ins.
Proof.
  induction ins as [| input ins IH]; cbn [first_unlock_error].
  - split; [constructor | reflexivity].
  - destruct (unlockUtxo node _ _ _) eqn:Hu.
    + split; [discriminate | intros H; inversion H; congruence].
    + rewrite IH. split; [now constructor | intros H; now inversion H].
Qed.

(** ** Funding, signing and the result *)

(** X5: a failure of the funding primitive is the workflow's failure,
    unchanged, and the funding call is the last call issued: nothing is
    unlocked and nothing is signed. *)
Theorem funding_failure_ends_the_run
        parseAmount sched args node outs ins fee e :
  lnd args = Some node ->
  In (CallFundPsbt outs ins fee)
     (trace (fund_transaction parseAmount sched args)) ->
  fundPsbt node outs ins fee = inl e ->
  outcome (fund_transaction parseAmount sched args) = inl e /\
  exists before,
    trace (fund_transaction parseAmount sched args)
    = (before ++ [CallFundPsbt outs ins fee])%list.
Proof.
  intros Hl Hin Hfail.
  pose proof (calls_only_after_validation _ _ _ _ Hin) as Hv.
  destruct (validate_passed _ Hv)
    as (node' & askfn & addrs & amts & explicit & Hl' & Ha & Had & Ham &
        Hu & _).
  rewrite Hl in Hl'. inversion Hl'. subst node'.
  rewrite (fund_transaction_validated parseAmount sched args
             node askfn addrs amts explicit) in * by assumption.
  apply fund_call_inversion in Hin.
  destruct Hin as (qs & Hout & Hres & Hd & -> & ->).
  pose proof (resolve_success_no_immediate _ _ _ _ _ _ _ Hres) as Himm.
  rewrite run_validated_trace, run_validated_outcome by assumption.
  rewrite Hout, Hres.
  rewrite fund_unfold, Hd, Hfail. cbn [trace outcome fst snd].
  split; [reflexivity |].
  exists (CallGetChainFeeRate ::
          trace (derive_outputs parseAmount (combine addrs amts)) ++
          trace (issue_getUtxos sched args node) ++
          trace (resolve sched args node askfn explicit outs) ++
          [CallLoggerInfo (LogFund (fee_rate args (fst qs)) outs)])%list.
  cbn [app]. rewrite ?List.app_nil_r, <- !List.app_assoc. reflexivity.
Qed.

(** X6: a result is returned only after one funding call and one signing
    call: the funding primitive answered a funded transaction, the signer
    was called on its PSBT, and the result holds the transaction the
    signer answered. *)
Theorem result_is_the_signed_funded_transaction
        parseAmount sched args result :
  outcome (fund_transaction parseAmount sched args) = inr result ->
  exists node outs ins fee funded,
    lnd args = Some node /\
    calls_of is_fund (fund_transaction parseAmount sched args)
    = [CallFundPsbt outs ins fee] /\
    fundPsbt node outs ins fee = inr funded /\
    calls_of is_sign (fund_transaction parseAmount sched args)
    = [CallSignPsbt (psbt funded)] /\
    signPsbt node (psbt funded) = inr (signed_transaction result).
Proof.
  intros Hok. destruct (validate args) as [e |] eqn:Hv.
  { unfold fund_transaction in Hok. rewrite Hv in Hok. discriminate. }
  destruct (validate_passed _ Hv)
    as (node & askfn & addrs & amts & explicit & Hl & Ha & Had & Ham &
        Hu & _).
  rewrite (fund_transaction_validated parseAmount sched args
             node askfn addrs amts explicit) in * by assumption.
  destruct (immediate_failure sched CallGetChainFeeRate
              (getChainFeeRate node)) as [e |] eqn:Himm.
  { rewrite (run_validated_at_once _ _ _ _ _ _ _ _ _ Himm) in Hok.
    discriminate. }
  rewrite run_validated_outcome in Hok by assumption.
  rewrite !run_validated_calls by assumption.
  rewrite !derive_outputs_quiet by reflexivity.
  destruct (outcome (derive_outputs _ _)) as [e | outs]; [discriminate |].
  rewrite !issue_getUtxos_quiet, !resolve_quiet by reflexivity.
  destruct (outcome (resolve _ _ _ _ _ _)) as [e | qs]; [discriminate |].
  rewrite fund_unfold in *. destruct (has_dust outs); [discriminate |].
  cbn [outcome snd] in Hok.
  destruct (fundPsbt node outs _ _) as [e | funded] eqn:Hf;
    [discriminate |].
  apply finish_success in Hok. destruct Hok as (Hsign & _ & Hnow).
  exists node, outs, (inputs_argument (snd qs)), (fee_rate args (fst qs)),
    funded.
  pose proof (finish_quiet_fund sched args node funded) as Hqf.
  unfold quiet in Hqf. cbn [outcome snd].
  rewrite Hqf, finish_signs, Hnow.
  repeat split; auto.
Qed.

Lemma result_is_the_signed_funded_transaction_witness :
  let run := fund_transaction Sample.parseAmount Sample.in_order
               (Sample.request "0.001" None false false Sample.node []) in
  exists node outs ins fee funded,
    Some Sample.node = Some node /\
    calls_of is_fund run = [CallFundPsbt outs ins fee] /\
    fundPsbt node outs ins fee = inr funded /\
    calls_of is_sign run = [CallSignPsbt (psbt funded)] /\
    signPsbt node (psbt funded) = inr "signedhex".
Proof.
  exact (result_is_the_signed_funded_transaction
           Sample.parseAmount Sample.in_order
           (Sample.request "0.001" None false false Sample.node [])
           {| signed_transaction := "signedhex" |} eq_refl).
Defined.

Lemma funding_failure_ends_the_run_witness :
  let run := fund_transaction Sample.parseAmount Sample.in_order
               (Sample.request "0.001" None true false
                  Sample.node_no_funds []) in
  outcome run = inl (503%Z, "UnexpectedErrorFundingPsbt") /\
  exists before,
    trace run
    = (before ++
       [CallFundPsbt [{| address := "addr1"; output_tokens := 100000 |}]
          None 7])%list.
Proof.
  apply (funding_failure_ends_the_run Sample.parseAmount Sample.in_order
           (Sample.request "0.001" None true false Sample.node_no_funds [])
           Sample.node_no_funds
           [{| address := "addr1"; output_tokens := 100000 |}] None 7%Z
           (503%Z, "UnexpectedErrorFundingPsbt"));
    try reflexivity.
  vm_compute. tauto.
Defined.

Lemma finish_unlock_failure sched args node funded :
  is_dry_run args = true ->
  first_unlock_error node (inputs funded) <> None ->
  exists e, outcome (finish sched args node funded) = inl e.
Proof.
  intros Hdry Hfail.
  unfold finish, issue_unlock, issue_sign, unlock_reply.
  rewrite issue_unfold. unfold immediate_failure.
  repeat rewrite outcome_bind. rewrite Hdry. cbn [negb].
  destruct (first_unlock_error node (inputs funded)) as [e |];
    [| contradiction].
  destruct (first_immediate_unlock_error sched node (inputs funded));
    destruct (sign_reply_first sched);
    destruct (signPsbt node (psbt funded)) as [e' | signed];
    destruct (fails_at_once sched (CallSignPsbt (psbt funded)));
    cbn; eauto.
Qed.

Lemma first_immediate_unlock_error_none sched node ins :
  first_immediate_unlock_error sched node ins = None <->
  Forall (fun input =>
            unlockUtxo node (lock_id input) (transaction_id input)
              (transaction_vout input) <> None ->
            fails_at_once sched
              (CallUnlockUtxo (lock_id input) (transaction_id input)
                 (transaction_vout input)) = false) ins.
Proof.
  induction ins as [| input ins IH]; cbn [first_immediate_unlock_error].
  - split; [constructor | reflexivity].
  - destruct (unlockUtxo node _ _ _) as [e |] eqn:Hu.
    + destruct (fails_at_once sched _) eqn:Hat.
      * split; [discriminate |]. intros H. inversion H as [| ? ? Hh _].
        subst. rewrite Hu, Hat in Hh.
        assert (Hf : true = false) by (apply Hh; discriminate).
        discriminate Hf.
      * rewrite IH. split; [intros H; constructor; auto |].
        intros H. now inversion H.
    + rewrite IH. split.
      * intros H. constructor; [| exact H].
        rewrite Hu. intros Hne. contradiction.
      * intros H. now inversion H.
Qed.

(** X7: on a dry run a failing unlock fails the workflow, yet the unlock
    call of every input of the funded transaction has been issued, also
    for the inputs after the failing one.  The signing call has been
    issued as well when no unlock failed at once; when one did, the run
    ended before the sign task could start and nothing was signed. *)
Theorem unlock_failure_fails_the_dry_run
        parseAmount sched args node outs ins fee funded :
  is_dry_run args = true ->
  lnd args = Some node ->
  In (CallFundPsbt outs ins fee)
     (trace (fund_transaction parseAmount sched args)) ->
  fundPsbt node outs ins fee = inr funded ->
  Exists (fun input =>
            unlockUtxo node (lock_id input) (transaction_id input)
              (transaction_vout input) <> None) (inputs funded) ->
  (exists e, outcome (fund_transaction parseAmount sched args) = inl e) /\
  calls_of is_unlock (fund_transaction parseAmount sched args)
  = map (fun input =>
           CallUnlockUtxo (lock_id input) (transaction_id input)
             (transaction_vout input))
        (inputs funded) /\
  (Forall (fun input =>
             unlockUtxo node (lock_id input) (transaction_id input)
               (transaction_vout input) <> None ->
             fails_at_once sched
               (CallUnlockUtxo (lock_id input) (transaction_id input)
                  (transaction_vout input)) = false) (inputs funded) ->
   calls_of is_sign (fund_transaction parseAmount sched args)
   = [CallSignPsbt (psbt funded)]) /\
  (Exists (fun input =>
             unlockUtxo node (lock_id input) (transaction_id input)
               (transaction_vout input) <> None /\
             fails_at_once sched
               (CallUnlockUtxo (lock_id input) (transaction_id input)
                  (transaction_vout input)) = true) (inputs funded) ->
   calls_of is_sign (fund_transaction parseAmount sched args) = []).
Proof.
  intros Hdry Hl Hin Hfund Hex.
  pose proof (calls_only_after_validation _ _ _ _ Hin) as Hv.
  destruct (validate_passed _ Hv)
    as (node' & askfn & addrs & amts & explicit & Hl' & Ha & Had & Ham &
        Hu & _).
  rewrite Hl in Hl'. inversion Hl'. subst node'.
  rewrite (fund_transaction_validated parseAmount sched args
             node askfn addrs amts explicit) in * by assumption.
  apply fund_call_inversion in Hin.
  destruct Hin as (qs & Hout & Hres & Hd & -> & ->).
  pose proof (resolve_success_no_immediate _ _ _ _ _ _ _ Hres) as Himm.
  rewrite run_validated_outcome, run_validated_unlocks,
    run_validated_calls by assumption.
  rewrite derive_outputs_quiet by reflexivity.
  rewrite Hout, Hres.
  rewrite issue_getUtxos_quiet, resolve_quiet by reflexivity.
  rewrite fund_unfold, Hd, Hfund. cbn [outcome snd]. rewrite Hdry.
  rewrite finish_signs. unfold unlock_fails_at_once. rewrite Hdry.
  cbn [andb].
  assert (Hne : first_unlock_error node (inputs funded) <> None).
  { intros Hnone. apply first_unlock_error_none in Hnone.
    apply Exists_exists in Hex. destruct Hex as (input & Hi & Hbad).
    rewrite Forall_forall in Hnone. now apply Hbad, Hnone. }
  split; [now apply finish_unlock_failure |].
  split; [reflexivity |].
  split.
  - intros Hlater. apply first_immediate_unlock_error_none in Hlater.
    now rewrite Hlater.
  - intros Hnow.
    destruct (first_immediate_unlock_error sched node (inputs funded))
      eqn:Hf; [reflexivity |].
    exfalso. apply first_immediate_unlock_error_none in Hf.
    apply Exists_exists in Hnow. destruct Hnow as (input & Hi & Hbad & Hat).
    rewrite Forall_forall in Hf. specialize (Hf input Hi Hbad). congruence.
Qed.

Lemma unlock_failure_fails_the_dry_run_witness :
  (let run := fund_transaction Sample.parseAmount Sample.in_order
                (Sample.request "0.001" None true false
                   Sample.node_keeps_lock []) in
   (exists e, outcome run = inl e) /\
   calls_of is_unlock run
   = [CallUnlockUtxo "lock1" Sample.ab32 (Js.Num 0);
      CallUnlockUtxo "lock2" Sample.ab32 (Js.Num 1)] /\
   calls_of is_sign run = [CallSignPsbt "psbt"]) /\
  (let run := fund_transaction Sample.parseAmount Sample.at_once
                (Sample.request "0.001" None true false
                   Sample.node_keeps_lock []) in
   calls_of is_unlock run
   = [CallUnlockUtxo "lock1" Sample.ab32 (Js.Num 0);
      CallUnlockUtxo "lock2" Sample.ab32 (Js.Num 1)] /\
   calls_of is_sign run = []).
Proof.
  assert (Hin : forall s,
             s = Sample.in_order \/ s = Sample.at_once ->
             In (CallFundPsbt
                   [{| address := "addr1"; output_tokens := 100000 |}]
                   None 7)
                (trace (fund_transaction Sample.parseAmount s
                          (Sample.request "0.001" None true false
                             Sample.node_keeps_lock [])))).
  { intros s [-> | ->]; vm_compute; tauto. }
  assert (Hbad : Exists
                   (fun input =>
                      unlockUtxo Sample.node_keeps_lock (lock_id input)
                        (transaction_id input) (transaction_vout input)
                      <> None) (inputs Sample.funded)).
  { apply Exists_cons_tl, Exists_cons_hd. discriminate. }
  split.
  - destruct (unlock_failure_fails_the_dry_run
                Sample.parseAmount Sample.in_order
                (Sample.request "0.001" None true false
                   Sample.node_keeps_lock [])
                Sample.node_keeps_lock
                [{| address := "addr1"; output_tokens := 100000 |}]
                None 7%Z Sample.funded
                eq_refl eq_refl (Hin Sample.in_order (or_introl eq_refl))
                eq_refl Hbad)
      as (Hfail & Hunlocks & Hsign & _).
    split; [exact Hfail |]. split; [exact Hunlocks |].
    apply Hsign. repeat constructor.
  - destruct (unlock_failure_fails_the_dry_run
                Sample.parseAmount Sample.at_once
                (Sample.request "0.001" None true false
                   Sample.node_keeps_lock [])
                Sample.node_keeps_lock
                [{| address := "addr1"; output_tokens := 100000 |}]
                None 7%Z Sample.funded
                eq_refl eq_refl (Hin Sample.at_once (or_intror eq_refl))
                eq_refl Hbad)
      as (_ & Hunlocks & _ & Hnone).
    split; [exact Hunlocks |].
    apply Hnone. apply Exists_cons_tl, Exists_cons_hd.
    split; [discriminate | reflexivity].
Defined.

(** ** Enumeration and prompt *)

Lemma finish_quiet kind sched args node funded :
  (forall l t v, kind (CallUnlockUtxo l t v) = false) ->
  (forall e, kind (CallLoggerInfo e) = false) ->
  (forall p, kind (CallSignPsbt p) = false) ->
  quiet kind (finish sched args node funded).
Proof.
  intros Hu Hl Hs. unfold quiet, calls_of.
  rewrite finish_trace, filter_app.
  assert (Hun : filter kind (unlock_calls funded) = []).
  { unfold unlock_calls. induction (inputs funded) as [| i l IH];
      [reflexivity |]. cbn [map filter]. now rewrite Hu. }
  assert (Hsg : filter kind (sign_calls funded) = []).
  { unfold sign_calls. cbn [filter]. now rewrite Hl, Hs. }
  destruct (is_dry_run args);
    destruct (unlock_fails_at_once sched args node funded);
    rewrite ?Hun, ?Hsg; reflexivity.
Qed.

Lemma resolve_not_selecting sched args node askfn explicit outs :
  is_selecting_utxos args = false ->
  resolve sched args node askfn explicit outs =
  ([], match getChainFeeRate node with
       | inl e => inl e
       | inr queried => inr (queried, explicit)
       end).
Proof.
  intros Hsel. unfold resolve, select_utxos. rewrite Hsel. cbn [negb].
  destruct explicit as [| c explicit];
    destruct (getChainFeeRate node); reflexivity.
Qed.

(** X8: without the selection flag no run enumerates the wallet's coins
    and no run prompts: explicit coins, or none, go to the funding step as
    they are. *)
Theorem no_enumeration_without_selection parseAmount sched args :
  is_selecting_utxos args = false ->
  calls_of is_getUtxos (fund_transaction parseAmount sched args) = [] /\
  calls_of is_ask (fund_transaction parseAmount sched args) = [].
Proof.
  intros Hsel. destruct (validate args) as [e |] eqn:Hv.
  { unfold fund_transaction. rewrite Hv. now split. }
  destruct (validate_passed _ Hv)
    as (node & askfn & addrs & amts & explicit & Hl & Ha & Had & Ham &
        Hu & _).
  rewrite (fund_transaction_validated parseAmount sched args
             node askfn addrs amts explicit) by assumption.
  destruct (immediate_failure sched CallGetChainFeeRate
              (getChainFeeRate node)) as [e |] eqn:Himm.
  { rewrite (run_validated_at_once _ _ _ _ _ _ _ _ _ Himm). now split. }
  rewrite !run_validated_calls by assumption.
  rewrite !derive_outputs_quiet by reflexivity.
  destruct (outcome (derive_outputs _ _)) as [e | outs]; [now split |].
  rewrite (issue_getUtxos_quiet is_ask) by reflexivity.
  rewrite resolve_not_selecting by assumption.
  unfold issue_getUtxos. rewrite Hsel. cbn [negb outcome snd].
  destruct (getChainFeeRate node) as [e | q]; [now split |].
  rewrite !fund_quiet by reflexivity.
  destruct (outcome (fund _ _ _ _ _)) as [e | funded]; [now split |].
  rewrite !finish_quiet by reflexivity. now split.
Qed.

Lemma no_enumeration_without_selection_witness :
  let run := fund_transaction Sample.parseAmount Sample.in_order
               (Sample.request "0.001" None false false Sample.node
                  [(Sample.ab32 ++ ":1")%string]) in
  calls_of is_getUtxos run = [] /\ calls_of is_ask run = [].
Proof.
  exact (no_enumeration_without_selection
           Sample.parseAmount Sample.in_order
           (Sample.request "0.001" None false false Sample.node
              [(Sample.ab32 ++ ":1")%string])
           eq_refl).
Defined.

(** X9: with the selection flag, once the amounts have parsed, the
    wallet's coins are enumerated exactly once, with a minimum of one
    confirmation, whatever happens afterwards; only a fee query that has
    failed at once ends the run before the enumeration is requested. *)
Theorem selection_enumerates_confirmed_coins
        parseAmount sched args node addrs amts outs :
  validate args = None ->
  is_selecting_utxos args = true ->
  lnd args = Some node ->
  addresses args = Some addrs -> amounts args = Some amts ->
  outcome (derive_outputs parseAmount (combine addrs amts)) = inr outs ->
  calls_of is_getUtxos (fund_transaction parseAmount sched args)
  = match getChainFeeRate node with
    | inl _ =>
        if fails_at_once sched CallGetChainFeeRate then []
        else [CallGetUtxos 1]
    | inr _ => [CallGetUtxos 1]
    end.
Proof.
  intros Hv Hsel Hl Had Ham Hout.
  destruct (validate_passed _ Hv)
    as (node' & askfn & addrs' & amts' & explicit & Hl' & Ha & Had' & Ham' &
        Hu & _).
  rewrite Hl in Hl'. rewrite Had in Had'. rewrite Ham in Ham'.
  inversion Hl'. inversion Had'. inversion Ham'. subst node' addrs' amts'.
  rewrite (fund_transaction_validated parseAmount sched args
             node askfn addrs amts explicit) by assumption.
  assert (Hone :
            immediate_failure sched CallGetChainFeeRate
              (getChainFeeRate node) = None ->
            calls_of is_getUtxos
              (run_validated parseAmount sched args node askfn addrs amts
                 explicit) = [CallGetUtxos 1]).
  { intros Himm. rewrite run_validated_calls by assumption. rewrite Hout.
    rewrite derive_outputs_quiet by reflexivity.
    assert (Hres : calls_of is_getUtxos
                     (resolve sched args node askfn explicit outs) = []).
    { unfold calls_of.
      pose proof (resolve_quiet
                    (fun c => negb (is_ask c)) sched args node askfn
                    explicit outs (fun _ => eq_refl)) as Hq.
      unfold quiet, calls_of in Hq.
      induction (trace (resolve sched args node askfn explicit outs))
        as [| c t IH]; [reflexivity |].
      cbn [filter] in *. destruct c; cbn in *; try discriminate Hq; auto. }
    rewrite Hres. unfold issue_getUtxos at 1. rewrite Hsel, issue_unfold.
    cbn [negb calls_of trace fst filter is_getUtxos app].
    destruct (outcome (resolve _ _ _ _ _ _)) as [e | qs]; [reflexivity |].
    rewrite fund_quiet by reflexivity.
    destruct (outcome (fund _ _ _ _ _)) as [e | funded]; [reflexivity |].
    now rewrite finish_quiet by reflexivity. }
  unfold immediate_failure in Hone.
  destruct (getChainFeeRate node) as [e | q] eqn:Hfee; [| now apply Hone].
  destruct (fails_at_once sched CallGetChainFeeRate) eqn:Hat;
    [| now apply Hone].
  rewrite (run_validated_at_once parseAmount sched args node askfn addrs
             amts explicit e); [reflexivity |].
  unfold immediate_failure. now rewrite Hfee, Hat.
Qed.

Lemma selection_enumerates_confirmed_coins_witness :
  calls_of is_getUtxos
    (fund_transaction Sample.parseAmount Sample.at_once
       (Sample.request "0.001" None false true Sample.node []))
  = [CallGetUtxos 1] /\
  calls_of is_getUtxos
    (fund_transaction Sample.parseAmount Sample.at_once
       (Sample.request "0.001" None false true Sample.node_no_fee []))
  = [].
Proof.
  split.
  - exact (selection_enumerates_confirmed_coins
             Sample.parseAmount Sample.at_once
             (Sample.request "0.001" None false true Sample.node [])
             Sample.node ["addr1"] ["0.001"]
             [{| address := "addr1"; output_tokens := 100000 |}]
             eq_refl eq_refl eq_refl eq_refl eq_refl eq_refl).
  - exact (selection_enumerates_confirmed_coins
             Sample.parseAmount Sample.at_once
             (Sample.request "0.001" None false true Sample.node_no_fee [])
             Sample.node_no_fee ["addr1"] ["0.001"]
             [{| address := "addr1"; output_tokens := 100000 |}]
             eq_refl eq_refl eq_refl eq_refl eq_refl eq_refl).
Defined.

(** ** A failing fee query *)

(** X10: when the fee query fails the funding primitive is never called
    and the workflow fails, whether or not the request carries a fee rate
    of its own; without the selection flag and with amounts that parse,
    the failure is the fee query's. *)
Theorem fee_failure_prevents_funding parseAmount sched args node e :
  validate args = None ->
  lnd args = Some node ->
  getChainFeeRate node = inl e ->
  calls_of is_fund (fund_transaction parseAmount sched args) = [] /\
  (exists e', outcome (fund_transaction parseAmount sched args) = inl e') /\
  (forall addrs amts outs,
      is_selecting_utxos args = false ->
      addresses args = Some addrs -> amounts args = Some amts ->
      outcome (derive_outputs parseAmount (combine addrs amts)) = inr outs ->
      outcome (fund_transaction parseAmount sched args) = inl e).
Proof.
  intros Hv Hl Hfee.
  destruct (validate_passed _ Hv)
    as (node' & askfn & addrs & amts & explicit & Hl' & Ha & Had & Ham &
        Hu & _).
  rewrite Hl in Hl'. inversion Hl'. subst node'.
  rewrite (fund_transaction_validated parseAmount sched args
             node askfn addrs amts explicit) by assumption.
  destruct (immediate_failure sched CallGetChainFeeRate
              (getChainFeeRate node)) as [e0 |] eqn:Himm.
  { rewrite (run_validated_at_once _ _ _ _ _ _ _ _ _ Himm).
    apply immediate_failure_is_failure in Himm.
    split; [reflexivity |]. split; [now exists e0 |].
    intros. cbn. congruence. }
  rewrite run_validated_calls, run_validated_outcome by assumption.
  rewrite derive_outputs_quiet by reflexivity.
  assert (Hres : forall outs,
             exists e', outcome (resolve sched args node askfn explicit outs)
                        = inl e').
  { intros outs.
    destruct (outcome (resolve sched args node askfn explicit outs))
      as [e' | qs] eqn:Hr; [now exists e' |].
    apply resolve_inversion in Hr. destruct Hr as [Hr _]. congruence. }
  split; [| split].
  - destruct (outcome (derive_outputs _ _)) as [e' | outs]; [reflexivity |].
    rewrite issue_getUtxos_quiet, resolve_quiet by reflexivity.
    destruct (Hres outs) as [e' ->]. reflexivity.
  - destruct (outcome (derive_outputs _ _)) as [e' | outs];
      [now exists e' |].
    destruct (Hres outs) as [e' ->]. now exists e'.
  - intros addrs' amts' outs Hsel Had' Ham' Hout.
    rewrite Had in Had'. rewrite Ham in Ham'.
    inversion Had'. inversion Ham'. subst addrs' amts'.
    rewrite Hout, resolve_not_selecting by assumption.
    now rewrite Hfee.
Qed.

Lemma fee_failure_prevents_funding_witness :
  let run := fund_transaction Sample.parseAmount Sample.in_order
               (Sample.request "0.001" (Some 5%Z) false false
                  Sample.node_no_fee []) in
  calls_of is_fund run = [] /\
  outcome run = inl (503%Z, "UnexpectedErrorGettingFeeRate").
Proof.
  pose proof (fee_failure_prevents_funding
                Sample.parseAmount Sample.in_order
                (Sample.request "0.001" (Some 5%Z) false false
                   Sample.node_no_fee [])
                Sample.node_no_fee
                (503%Z, "UnexpectedErrorGettingFeeRate")
                eq_refl eq_refl eq_refl) as (Hno & _ & Hout).
  split; [exact Hno |].
  exact (Hout ["addr1"] ["0.001"]
           [{| address := "addr1"; output_tokens := 100000 |}]
           eq_refl eq_refl eq_refl eq_refl).
Defined.

(** ** Independence of the order of replies *)

Lemma resolve_success_any_order s1 s2 args node askfn explicit outs qs :
  outcome (resolve s1 args node askfn explicit outs) = inr qs ->
  resolve s2 args node askfn explicit outs
  = resolve s1 args node askfn explicit outs.
Proof.
  unfold resolve, select_utxos, fee_comes_first, immediate_failure.
  destruct (is_selecting_utxos args); cbn [negb]; [| reflexivity].
  destruct (getChainFeeRate node) as [e | q];
    destruct (getUtxos node minConfs) as [e' | coins];
    destruct (fails_at_once s1 CallGetChainFeeRate);
    destruct (fails_at_once s1 (CallGetUtxos minConfs));
    destruct (fee_reply_first s1); destruct (fee_reply_first s2);
    destruct explicit as [| x explicit];
    try destruct coins as [| c coins];
    cbn; intros H; try discriminate; reflexivity.
Qed.

Lemma no_immediate_unlock_error sched node ins :
  first_unlock_error node ins = None ->
  first_immediate_unlock_error sched node ins = None.
Proof.
  induction ins as [| input ins IH];
    cbn [first_unlock_error first_immediate_unlock_error];
    [reflexivity |].
  destruct (unlockUtxo node _ _ _); [discriminate | exact IH].
Qed.

Lemma finish_of_success sched args node funded signed :
  signPsbt node (psbt funded) = inr signed ->
  (is_dry_run args = true ->
   first_unlock_error node (inputs funded) = None) ->
  finish sched args node funded
  = (((if is_dry_run args then unlock_calls funded else [])
        ++ sign_calls funded)%list,
     inr {| signed_transaction := signed |}).
Proof.
  intros Hs Hu. unfold finish, issue_unlock, issue_sign, unlock_reply,
    sign_calls.
  rewrite issue_unfold. unfold immediate_failure. rewrite Hs.
  destruct (is_dry_run args); cbn [negb].
  - rewrite (no_immediate_unlock_error sched node _ (Hu eq_refl)).
    rewrite (Hu eq_refl).
    destruct (sign_reply_first sched); cbn;
      rewrite ?List.app_nil_r; reflexivity.
  - destruct (sign_reply_first sched); reflexivity.
Qed.

Lemma finish_success_any_order s1 s2 args node funded result :
  outcome (finish s1 args node funded) = inr result ->
  finish s2 args node funded = finish s1 args node funded.
Proof.
  intros Hok. apply finish_success in Hok. destruct Hok as (Hs & Hu & _).
  now rewrite !(finish_of_success _ _ _ _ _ Hs Hu).
Qed.

Lemma issue_getUtxos_trace sched args node :
  trace (issue_getUtxos sched args node)
  = if is_selecting_utxos args then [CallGetUtxos minConfs] else [].
Proof.
  unfold issue_getUtxos. destruct (is_selecting_utxos args);
    [now rewrite issue_unfold | reflexivity].
Qed.

(** X11: a run that returns a result is the same run, call for call and
    with the same result, under every order in which concurrently pending
    replies can arrive. *)
Theorem successful_run_is_order_independent
        parseAmount s1 s2 args result :
  outcome (fund_transaction parseAmount s1 args) = inr result ->
  fund_transaction parseAmount s2 args
  = fund_transaction parseAmount s1 args.
Proof.
  intros Hok. destruct (validate args) as [e |] eqn:Hv.
  { unfold fund_transaction. now rewrite Hv. }
  destruct (validate_passed _ Hv)
    as (node & askfn & addrs & amts & explicit & Hl & Ha & Had & Ham &
        Hu & _).
  rewrite !(fund_transaction_validated parseAmount _ args
              node askfn addrs amts explicit) in * by assumption.
  destruct (immediate_failure s1 CallGetChainFeeRate
              (getChainFeeRate node)) as [e |] eqn:Himm1.
  { rewrite (run_validated_at_once _ _ _ _ _ _ _ _ _ Himm1) in Hok.
    discriminate. }
  rewrite run_validated_outcome in Hok by assumption.
  destruct (outcome (derive_outputs parseAmount (combine addrs amts)))
    as [e | outs] eqn:Hout; [discriminate |].
  destruct (outcome (resolve s1 args node askfn explicit outs))
    as [e | qs] eqn:Hres; [discriminate |].
  assert (Himm2 : immediate_failure s2 CallGetChainFeeRate
                    (getChainFeeRate node) = None).
  { apply resolve_inversion in Hres. destruct Hres as [Hfee _].
    now rewrite Hfee. }
  rewrite (surjective_M (run_validated parseAmount s2 _ _ _ _ _ _)).
  rewrite (surjective_M (run_validated parseAmount s1 _ _ _ _ _ _)).
  rewrite !run_validated_trace, !run_validated_outcome by assumption.
  rewrite Hout, !issue_getUtxos_trace.
  rewrite (resolve_success_any_order s1 s2 _ _ _ _ _ _ Hres), Hres.
  destruct (outcome (fund _ _ _ _ _)) as [e | funded]; [discriminate |].
  now rewrite (finish_success_any_order s1 s2 _ _ _ _ Hok).
Qed.

Lemma successful_run_is_order_independent_witness :
  let args := Sample.request "0.001" None true true Sample.node [] in
  fund_transaction Sample.parseAmount Sample.reversed args
  = fund_transaction Sample.parseAmount Sample.in_order args.
Proof.
  exact (successful_run_is_order_independent Sample.parseAmount
           Sample.in_order Sample.reversed
           (Sample.request "0.001" None true true Sample.node [])
           {| signed_transaction := "signedhex" |} eq_refl).
Defined.

(** ** Coins chosen at the prompt *)

Lemma Number_of_rendered (n : N) :
  Js.Number (Js.num_to_string (Js.Num n)) = Js.Num n.
Proof.
  cbn [Js.num_to_string].
  rewrite (Number_digits _ (N.to_uint n)).
  - now rewrite DecimalN.Unsigned.of_to.
  - intros E.
    assert (H : NilEmpty.uint_of_string
                  (NilEmpty.string_of_uint (N.to_uint n))
                = Some (N.to_uint n)) by apply NilEmpty.usu.
    rewrite E in H. cbn in H. inversion H as [Hnil].
    destruct n as [| p]; [discriminate Hnil |].
    symmetry in Hnil. revert Hnil.
    apply DecimalPos.Unsigned.to_uint_nonnil.
  - apply NilEmpty.usu.
  - apply string_of_uint_shape.
Qed.

Lemma outpoint_of_coin_parsed {A} `{Outpointed A} (utxo : A) (n : N) :
  String.length (transaction_id utxo) = 64%nat ->
  transaction_vout utxo = Js.Num n ->
  asInput (asUtxo (asOutpoint utxo))
  = {| input_transaction_id := transaction_id utxo;
       input_transaction_vout := Js.Num n |}.
Proof.
  intros Hlen Hv. unfold asInput, asUtxo, asOutpoint. cbn [id vout].
  rewrite Hv. f_equal.
  - rewrite <- Hlen. apply slice_to_append.
  - rewrite slice_from_succ. rewrite <- Hlen at 1.
    rewrite slice_from_append. cbn [String.append Js.slice_from].
    apply Number_of_rendered.
Qed.

(** X12: coins picked at the prompt reach the funding primitive as input
    records with the very transaction ids and output indices of the
    enumerated coins, whenever these have 64-character ids and natural
    indices (of any size). *)
Theorem prompted_coins_are_funded
        parseAmount sched args node askfn coins chosen outs ins fee :
  lnd args = Some node -> ask args = Some askfn ->
  is_selecting_utxos args = true ->
  getUtxos node minConfs = inr coins ->
  askfn (selection_question coins outs) = map asOutpoint chosen ->
  chosen <> [] ->
  Forall (fun u => String.length (utxo_transaction_id u) = 64%nat /\
                   exists n, utxo_transaction_vout u = Js.Num n) chosen ->
  In (CallFundPsbt outs ins fee)
     (trace (fund_transaction parseAmount sched args)) ->
  ins = Some (map (fun u =>
                     {| input_transaction_id := utxo_transaction_id u;
                        input_transaction_vout := utxo_transaction_vout u |})
                  chosen).
Proof.
  intros Hl Ha Hsel Hget Hask Hne Hwf Hin.
  pose proof (calls_only_after_validation _ _ _ _ Hin) as Hv.
  apply validate_passed in Hv.
  destruct Hv as (_ & _ & _ & _ & ex & _ & _ & _ & _ & Hu0 & _ & _ & Hex).
  apply fund_call_of_validated in Hin.
  destruct Hin as (node' & askfn' & addrs & amts & explicit & qs & Hl' &
                   Ha' & _ & _ & Hu & _ & Hres & _ & -> & _).
  rewrite Hl in Hl'. rewrite Ha in Ha'. rewrite Hu0 in Hu.
  inversion Hl'. inversion Ha'. inversion Hu. subst node' askfn' ex.
  destruct Hex as [-> | Hf]; [| congruence].
  apply resolve_inversion in Hres.
  destruct Hres as (_ & _ & Hsel').
  destruct (Hsel' Hsel eq_refl) as (coins' & Hget' & _ & Hqs & _).
  rewrite Hget in Hget'. inversion Hget'. subst coins'.
  rewrite Hqs, Hask. unfold inputs_argument.
  rewrite !map_map.
  destruct chosen as [| c chosen]; [contradiction |].
  cbn [map is_empty negb]. f_equal.
  change (map (fun u => asInput (asUtxo (asOutpoint u))) (c :: chosen)
          = map (fun u =>
                   {| input_transaction_id := utxo_transaction_id u;
                      input_transaction_vout := utxo_transaction_vout u |})
                (c :: chosen)).
  apply map_ext_in. intros u Hu'.
  rewrite Forall_forall in Hwf. destruct (Hwf u Hu') as (Hlen & n & Hn).
  rewrite (@outpoint_of_coin_parsed Utxo Utxo_outpointed u n Hlen Hn).
  now rewrite Hn.
Qed.

Lemma prompted_coins_are_funded_witness :
  Some [{| input_transaction_id := Sample.ab32;
           input_transaction_vout := Js.Num 3 |}]
  = Some (map (fun u =>
                 {| input_transaction_id := utxo_transaction_id u;
                    input_transaction_vout := utxo_transaction_vout u |})
              [Sample.coin]).
Proof.
  apply (prompted_coins_are_funded Sample.parseAmount Sample.in_order
           (Sample.request "0.001" None false true Sample.node [])
           Sample.node Sample.pick_all [Sample.coin] [Sample.coin]
           [{| address := "addr1"; output_tokens := 100000 |}]
           (Some [{| input_transaction_id := Sample.ab32;
                     input_transaction_vout := Js.Num 3 |}])
           7%Z);
    try reflexivity.
  - discriminate.
  - repeat constructor. now exists 3%N.
  - vm_compute. tauto.
Defined.

(** ** The validation callback on arbitrary selections *)

Lemma find_outpoint_none (coins : list Utxo) (s : string) :
  find (fun n => String.eqb (asOutpoint n) s) coins = None <->
  ~ In s (map asOutpoint coins).
Proof.
  induction coins as [| c coins IH]; cbn [find map In].
  - tauto.
  - destruct (String.eqb_spec (asOutpoint c) s) as [Heq | Hne].
    + split; [discriminate | intros H; exfalso; apply H; now left].
    + rewrite IH. tauto.
Qed.

Lemma tokens_of_none (coins : list Utxo) (input : list string) :
  tokens_of coins input = None <->
  Exists (fun s => ~ In s (map asOutpoint coins)) input.
Proof.
  induction input as [| s input IH]; cbn [tokens_of].
  - split; [discriminate | intros H; inversion H].
  - destruct (find _ coins) as [n |] eqn:Hf.
    + assert (Hin : ~ ~ In s (map asOutpoint coins)).
      { intros Hn. apply find_outpoint_none in Hn. congruence. }
      destruct (tokens_of coins input) as [ts |].
      * split; [discriminate |]. intros H. inversion H; subst.
        -- contradiction.
        -- apply IH in H1. discriminate.
      * split; [intros _; right; now apply IH | reflexivity].
    + split; [| reflexivity]. intros _. left.
      now apply find_outpoint_none.
Qed.

(** X13: the callback throws, instead of answering, exactly on a
    non-empty selection that names a string which is the outpoint of no
    enumerated coin. *)
Theorem selection_of_unknown_coin_throws
        (coins : list Utxo) (requested : list Z) (input : list string) :
  validate_selection coins requested input = Throws <->
  input <> [] /\ Exists (fun s => ~ In s (map asOutpoint coins)) input.
Proof.
  unfold validate_selection. rewrite <- tokens_of_none.
  destruct input as [| s input]; cbn [is_empty].
  - split; [discriminate | intros [H _]; contradiction].
  - destruct (tokens_of coins (s :: input)) as [ts |].
    + split; [| intros [_ H]; discriminate].
      destruct (_ <? _)%Z; discriminate.
    + split; [intros _; split; [discriminate | reflexivity] | reflexivity].
Qed.

Lemma sumOf_permutation (l l' : list Z) :
  Permutation.Permutation l l' -> sumOf l = sumOf l'.
Proof.
  induction 1 as [| x l l' _ IH | x y l | l l' l'' _ IH1 _ IH2].
  - reflexivity.
  - now rewrite !sumOf_cons, IH.
  - rewrite !sumOf_cons. lia.
  - congruence.
Qed.

Lemma tokens_of_permutation coins (input input' : list string) :
  Permutation.Permutation input input' ->
  match tokens_of coins input, tokens_of coins input' with
  | Some ts, Some ts' => Permutation.Permutation ts ts'
  | None, None => True
  | _, _ => False
  end.
Proof.
  induction 1 as [| s l l' _ IH | s s' l | l l' l'' _ IH1 _ IH2].
  - cbn. constructor.
  - cbn [tokens_of]. destruct (find _ coins) as [n |]; [| exact I].
    destruct (tokens_of coins l), (tokens_of coins l');
      auto using Permutation.perm_skip.
  - cbn [tokens_of].
    destruct (find (fun n => String.eqb (asOutpoint n) s) coins);
      destruct (find (fun n => String.eqb (asOutpoint n) s') coins);
      destruct (tokens_of coins l); auto using Permutation.perm_swap.
  - destruct (tokens_of coins l), (tokens_of coins l'),
      (tokens_of coins l''); auto; try contradiction;
      eauto using Permutation.perm_trans.
Qed.

(** X14: for non-negative token counts whose sums lie in the range in
    which the source's double additions are exact, the callback's answer
    depends neither on the order in which the coins were ticked nor on
    the order of the requested amounts. *)
Theorem selection_order_is_irrelevant
        (coins : list Utxo) (requested requested' : list Z)
        (input input' : list string) :
  Forall (fun u => (0 <= tokens u)%Z) coins ->
  Forall (fun n => (0 <= n)%Z) requested ->
  (token_sum requested < exact_bound)%Z ->
  (forall ts, tokens_of coins input = Some ts ->
              (token_sum ts < exact_bound)%Z) ->
  Permutation.Permutation input input' ->
  Permutation.Permutation requested requested' ->
  validate_selection coins requested input
  = validate_selection coins requested' input'.
Proof.
  intros _ _ _ _ Hin Hreq. unfold validate_selection.
  rewrite (sumOf_permutation _ _ Hreq).
  assert (He : is_empty input = is_empty input').
  { destruct input, input'; try reflexivity.
    - apply Permutation.Permutation_nil in Hin. discriminate.
    - apply Permutation.Permutation_sym, Permutation.Permutation_nil in Hin.
      discriminate. }
  rewrite He. destruct (is_empty input'); [reflexivity |].
  pose proof (tokens_of_permutation coins _ _ Hin) as Hts.
  destruct (tokens_of coins input), (tokens_of coins input');
    try contradiction; [| reflexivity].
  now rewrite (sumOf_permutation _ _ Hts).
Qed.

Lemma selection_order_is_irrelevant_witness :
  let coins := [Sample.coin; Sample.coin2] in
  validate_selection coins [600000%Z; 300000%Z]
    [asOutpoint Sample.coin; asOutpoint Sample.coin2]
  = validate_selection coins [300000%Z; 600000%Z]
      [asOutpoint Sample.coin2; asOutpoint Sample.coin] /\
  validate_selection coins [300000%Z; 600000%Z]
    [asOutpoint Sample.coin2; asOutpoint Sample.coin]
  = RejectWith "Selected 0.00800000, need 0.00100000 more".
Proof.
  split; [| reflexivity].
  apply (selection_order_is_irrelevant
           [Sample.coin; Sample.coin2]
           [600000%Z; 300000%Z] [300000%Z; 600000%Z]
           [asOutpoint Sample.coin; asOutpoint Sample.coin2]
           [asOutpoint Sample.coin2; asOutpoint Sample.coin]).
  - repeat constructor; simpl; lia.
  - repeat constructor; lia.
  - reflexivity.
  - intros ts Hts. vm_compute in Hts. inversion Hts. reflexivity.
  - apply Permutation.perm_swap.
  - apply Permutation.perm_swap.
Defined.

(** ** Bounds on an explicit coin's index *)

Lemma of_lu_bound (d : Decimal.uint) :
  (DecimalPos.Unsigned.of_lu d < 10 ^ N.of_nat (Decimal.nb_digits d))%N.
Proof.
  induction d; cbn [DecimalPos.Unsigned.of_lu Decimal.nb_digits];
    rewrite ?Nat2N.inj_succ, ?N.pow_succ_r'; cbn [N.of_nat]; lia.
Qed.

Lemma of_uint_bound (d : Decimal.uint) :
  (N.of_uint d < 10 ^ N.of_nat (Decimal.nb_digits d))%N.
Proof.
  unfold N.of_uint. rewrite DecimalPos.Unsigned.of_uint_alt.
  rewrite <- (DecimalFacts.nb_digits_rev d). apply of_lu_bound.
Qed.

(** X15: the input record made from a coin string the pattern accepts has
    a transaction id of exactly 64 hexadecimal characters and a natural
    output index below 1000000. *)
Theorem outpoint_index_is_bounded (s : string) :
  isOutpoint s = true ->
  String.length (input_transaction_id (asInput (asUtxo s))) = 64%nat /\
  Js.all_chars Js.is_hex (input_transaction_id (asInput (asUtxo s)))
  = true /\
  exists n, input_transaction_vout (asInput (asUtxo s)) = Js.Num n /\
            (n < 1000000)%N.
Proof.
  intros H.
  destruct (outpoint_shape s H) as (u & Hlen & Hhex & Hs & Hrest & Hu & Hnb).
  unfold asInput, asUtxo.
  cbn [id vout input_transaction_id input_transaction_vout].
  repeat split; auto.
  exists (N.of_uint u). split.
  - apply Number_digits; auto.
    + intros E. rewrite E in Hu. cbn in Hu. inversion Hu. subst u.
      cbn in Hnb. lia.
    + rewrite Hrest. apply string_of_uint_shape.
  - pose proof (of_uint_bound u) as Hb.
    assert (Hp : (10 ^ N.of_nat (Decimal.nb_digits u) <= 10 ^ 6)%N)
      by (apply N.pow_le_mono_r; lia).
    change (10 ^ 6)%N with 1000000%N in Hp. lia.
Qed.

Lemma outpoint_index_is_bounded_witness :
  let s := Sample.ab32 ++ ":999999" in
  String.length (input_transaction_id (asInput (asUtxo s))) = 64%nat /\
  Js.all_chars Js.is_hex (input_transaction_id (asInput (asUtxo s)))
  = true /\
  exists n, input_transaction_vout (asInput (asUtxo s)) = Js.Num n /\
            (n < 1000000)%N.
Proof.
  apply (outpoint_index_is_bounded (Sample.ab32 ++ ":999999")).
  reflexivity.
Defined.

(** ** Display units *)

Lemma length_append (a b : string) :
  String.length (a ++ b) = (String.length a + String.length b)%nat.
Proof. induction a as [| c a IH]; simpl; [reflexivity | now rewrite IH]. Qed.

Lemma append_inj_tail (a a' b b' : string) :
  String.length b = String.length b' ->
  a ++ b = a' ++ b' -> a = a' /\ b = b'.
Proof.
  revert a'. induction a as [| c a IH]; intros [| c' a'] Hlen Heq.
  - now split.
  - exfalso. apply (f_equal String.length) in Heq.
    simpl in Heq. rewrite length_append in Heq. lia.
  - exfalso. apply (f_equal String.length) in Heq.
    simpl in Heq. rewrite length_append in Heq. lia.
  - simpl in Heq. inversion Heq; subst.
    destruct (IH a' Hlen H1) as [-> ->]. now split.
Qed.

Lemma pad_digits_length (k : nat) (n : Z) :
  String.length (Js.pad_digits k n) = k.
Proof.
  revert n. induction k as [| k IH]; intros n; cbn [Js.pad_digits];
    [reflexivity |].
  rewrite length_append, IH. simpl. lia.
Qed.

Lemma pad_digits_inj (k : nat) (x y : Z) :
  Js.pad_digits k x = Js.pad_digits k y ->
  (x mod 10 ^ Z.of_nat k = y mod 10 ^ Z.of_nat k)%Z.
Proof.
  revert x y. induction k as [| k IH]; intros x y Heq.
  - now rewrite !Z.mod_1_r.
  - cbn [Js.pad_digits] in Heq.
    apply append_inj_tail in Heq; [| reflexivity].
    destruct Heq as [Hhigh Hlow]. apply IH in Hhigh.
    assert (Hd : (x mod 10 = y mod 10)%Z).
    { inversion Hlow as [Hc].
      apply (f_equal nat_of_ascii) in Hc.
      pose proof (Z.mod_pos_bound x 10 ltac:(lia)).
      pose proof (Z.mod_pos_bound y 10 ltac:(lia)).
      rewrite !nat_ascii_embedding in Hc by lia. lia. }
    rewrite Nat2Z.inj_succ, Z.pow_succ_r by lia.
    rewrite !(Z.rem_mul_r _ 10) by lia. now rewrite Hd, Hhigh.
Qed.

Lemma dec_inj (x y : Z) :
  (0 <= x)%Z -> (0 <= y)%Z -> Js.dec x = Js.dec y -> x = y.
Proof.
  intros Hx Hy Heq. unfold Js.dec in Heq.
  apply (f_equal NilEmpty.uint_of_string) in Heq.
  rewrite !NilEmpty.usu in Heq. inversion Heq as [Hu].
  apply DecimalN.Unsigned.to_uint_inj in Hu. now apply Z2N.inj.
Qed.

Lemma dec_starts_with_digit (x : Z) :
  exists c r, Js.dec x = String c r /\ Js.is_digit c = true.
Proof.
  unfold Js.dec.
  destruct (string_of_uint_shape (N.to_uint (Z.to_N x))) as [Hd Hl].
  destruct (NilEmpty.string_of_uint (N.to_uint (Z.to_N x))) as [| c r] eqn:E.
  - exfalso.
    assert (H : NilEmpty.uint_of_string
                  (NilEmpty.string_of_uint (N.to_uint (Z.to_N x)))
                = Some (N.to_uint (Z.to_N x))) by apply NilEmpty.usu.
    rewrite E in H. cbn in H. inversion H as [Hnil].
    destruct (Z.to_N x) as [| p]; [discriminate Hnil |].
    symmetry in Hnil. revert Hnil.
    apply DecimalPos.Unsigned.to_uint_nonnil.
  - exists c, r. split; [reflexivity |].
    cbn [Js.all_chars] in Hd. now apply andb_true_iff in Hd.
Qed.

Lemma big_unit_body_inj (a b : Z) :
  (0 <= a)%Z -> (0 <= b)%Z ->
  Js.dec (a / 100000000) ++ "." ++ Js.pad_digits 8 (a mod 100000000)
  = Js.dec (b / 100000000) ++ "." ++ Js.pad_digits 8 (b mod 100000000) ->
  a = b.
Proof.
  intros Ha Hb Heq.
  apply append_inj_tail in Heq;
    [| rewrite !length_append, !pad_digits_length; reflexivity].
  destruct Heq as [Hq Hr].
  apply dec_inj in Hq; try (apply Z.div_pos; lia).
  apply append_inj_tail in Hr; [| now rewrite !pad_digits_length].
  destruct Hr as [_ Hp]. apply pad_digits_inj in Hp.
  change (10 ^ Z.of_nat 8)%Z with 100000000%Z in Hp.
  rewrite !Z.mod_mod in Hp by lia.
  rewrite (Z.div_mod a 100000000), (Z.div_mod b 100000000) by lia.
  now rewrite Hq, Hp.
Qed.

(** X16: within the range in which [toFixed(8)] prints the exact
    quotient, distinct token counts are shown as distinct amounts. *)
Theorem asBigUnit_injective (n m : Z) :
  (Z.abs n < exact_bound)%Z -> (Z.abs m < exact_bound)%Z ->
  n <> m -> asBigUnit n <> asBigUnit m.
Proof.
  intros _ _ Hne Heq. apply Hne. clear Hne. revert Heq.
  unfold asBigUnit.
  destruct (Z.ltb_spec n 0) as [Hn | Hn];
    destruct (Z.ltb_spec m 0) as [Hm | Hm]; intros Heq.
  - inversion Heq as [Hb]. apply big_unit_body_inj in Hb; lia.
  - exfalso.
    destruct (dec_starts_with_digit (Z.abs m / 100000000))
      as (c & r & Hd & Hc).
    rewrite Hd in Heq. inversion Heq; subst. discriminate Hc.
  - exfalso.
    destruct (dec_starts_with_digit (Z.abs n / 100000000))
      as (c & r & Hd & Hc).
    rewrite Hd in Heq. inversion Heq; subst. discriminate Hc.
  - cbn [String.append] in Heq. apply big_unit_body_inj in Heq; lia.
Qed.

Lemma asBigUnit_injective_witness :
  asBigUnit 123456789 <> asBigUnit 123456788 /\
  asBigUnit (-1) <> asBigUnit 1.
Proof.
  split; apply asBigUnit_injective;
    try reflexivity; discriminate.
Defined.

(** ** A failing signature, and funding without dust *)

Lemma finish_sign_failure sched args node funded e :
  signPsbt node (psbt funded) = inl e ->
  (exists e', outcome (finish sched args node funded) = inl e') /\
  (is_dry_run args = false ->
   outcome (finish sched args node funded) = inl e).
Proof.
  intros Hs. unfold finish, issue_unlock, issue_sign, unlock_reply.
  rewrite issue_unfold. unfold immediate_failure.
  repeat rewrite outcome_bind. rewrite Hs.
  destruct (is_dry_run args); cbn [negb];
    destruct (first_immediate_unlock_error sched node (inputs funded));
    destruct (fails_at_once sched (CallSignPsbt (psbt funded)));
    destruct (sign_reply_first sched);
    destruct (first_unlock_error node (inputs funded));
    cbn; split; eauto; discriminate.
Qed.

(** X17: when the signer fails the workflow fails, and nothing is undone:
    without the dry-run flag the failure is the signer's and no lock is
    released, with it the unlock call of every funded input has still
    been issued. *)
Theorem signing_failure_leaves_locks_as_they_are
        parseAmount sched args node outs ins fee funded e :
  lnd args = Some node ->
  In (CallFundPsbt outs ins fee)
     (trace (fund_transaction parseAmount sched args)) ->
  fundPsbt node outs ins fee = inr funded ->
  signPsbt node (psbt funded) = inl e ->
  (exists e', outcome (fund_transaction parseAmount sched args) = inl e') /\
  (is_dry_run args = false ->
   outcome (fund_transaction parseAmount sched args) = inl e) /\
  calls_of is_unlock (fund_transaction parseAmount sched args)
  = (if is_dry_run args
     then map (fun input =>
                 CallUnlockUtxo (lock_id input) (transaction_id input)
                   (transaction_vout input))
              (inputs funded)
     else []).
Proof.
  intros Hl Hin Hfund Hsign.
  pose proof (calls_only_after_validation _ _ _ _ Hin) as Hv.
  destruct (validate_passed _ Hv)
    as (node' & askfn & addrs & amts & explicit & Hl' & Ha & Had & Ham &
        Hu & _).
  rewrite Hl in Hl'. inversion Hl'. subst node'.
  rewrite (fund_transaction_validated parseAmount sched args
             node askfn addrs amts explicit) in * by assumption.
  apply fund_call_inversion in Hin.
  destruct Hin as (qs & Hout & Hres & Hd & -> & ->).
  pose proof (resolve_success_no_immediate _ _ _ _ _ _ _ Hres) as Himm.
  rewrite run_validated_outcome, run_validated_unlocks by assumption.
  rewrite Hout, Hres.
  rewrite fund_unfold, Hd, Hfund. cbn [outcome snd].
  destruct (finish_sign_failure sched args node funded e Hsign)
    as [Hfail Hnodry].
  repeat split; auto.
Qed.

Lemma signing_failure_leaves_locks_as_they_are_witness :
  let run := fund_transaction Sample.parseAmount Sample.in_order
               (Sample.request "0.001" None false false
                  Sample.node_no_sign []) in
  (exists e', outcome run = inl e') /\
  (false = false ->
   outcome run = inl (503%Z, "UnexpectedErrorSigningPsbt")) /\
  calls_of is_unlock run = [].
Proof.
  apply (signing_failure_leaves_locks_as_they_are
           Sample.parseAmount Sample.in_order
           (Sample.request "0.001" None false false
              Sample.node_no_sign [])
           Sample.node_no_sign
           [{| address := "addr1"; output_tokens := 100000 |}] None 7%Z
           Sample.funded (503%Z, "UnexpectedErrorSigningPsbt"));
    try reflexivity.
  vm_compute. tauto.
Defined.

(** X18: once the amounts have parsed without an output below 293 tokens
    (an output of exactly 293 is no dust) and fee rate and coin list are
    resolved, the funding primitive is called exactly once, on those
    outputs, that coin list and the resolved fee rate. *)
Theorem funding_is_called_without_dust
        parseAmount sched args node askfn addrs amts explicit outs qs :
  validate args = None ->
  lnd args = Some node -> ask args = Some askfn ->
  addresses args = Some addrs -> amounts args = Some amts ->
  utxos args = Some explicit ->
  outcome (derive_outputs parseAmount (combine addrs amts)) = inr outs ->
  Forall (fun o => (293 <= output_tokens o)%Z) outs ->
  outcome (resolve sched args node askfn explicit outs) = inr qs ->
  calls_of is_fund (fund_transaction parseAmount sched args)
  = [CallFundPsbt outs (inputs_argument (snd qs)) (fee_rate args (fst qs))].
Proof.
  intros Hv Hl Ha Had Ham Hu Hout Hbig Hres.
  rewrite (fund_transaction_validated parseAmount sched args
             node askfn addrs amts explicit) by assumption.
  pose proof (resolve_success_no_immediate _ _ _ _ _ _ _ Hres) as Himm.
  rewrite run_validated_calls by assumption. rewrite Hout, Hres.
  rewrite derive_outputs_quiet, issue_getUtxos_quiet, resolve_quiet
    by reflexivity.
  assert (Hd : has_dust outs = false).
  { destruct (has_dust outs) eqn:E; [| reflexivity].
    apply has_dust_Exists in E. apply Exists_exists in E.
    destruct E as (o & Ho & Hlt). rewrite Forall_forall in Hbig.
    specialize (Hbig o Ho). unfold dustValue in Hlt. lia. }
  rewrite fund_unfold, Hd. cbn [outcome snd].
  pose proof (fun f => finish_quiet_fund sched args node f) as Hq.
  unfold quiet in Hq.
  destruct (fundPsbt node outs _ _) as [e | funded]; rewrite ?Hq;
    reflexivity.
Qed.

Lemma funding_is_called_without_dust_witness :
  let outs := [{| address := "addr1"; output_tokens := 293 |}] in
  calls_of is_fund
    (fund_transaction (fun _ => inr 293%Z) Sample.in_order
       (Sample.request "dust floor" None false false Sample.node []))
  = [CallFundPsbt outs None 7].
Proof.
  apply (funding_is_called_without_dust
           (fun _ => inr 293%Z) Sample.in_order
           (Sample.request "dust floor" None false false Sample.node [])
           Sample.node Sample.pick_all ["addr1"] ["dust floor"] []
           [{| address := "addr1"; output_tokens := 293 |}] (7%Z, []));
    try reflexivity.
  repeat constructor. simpl. lia.
Defined.
